(** * The task batch-processing pipeline of Q4.py

    A shallow embedding of [src/Q4.py]: the [tasks] table, the shared
    [update_queue], the workers ([process_task]), the batching coroutine
    ([async_update_batch]) and the orchestration in [main].

    asyncio schedules coroutines cooperatively on one thread, so a coroutine
    runs without interruption from one suspension point ([await] that really
    waits) to the next.  The pipeline is therefore modelled as a labelled
    transition system whose states record, for every coroutine, the [await]
    it is suspended at, and whose events are the resumptions the event loop
    can deliver.  The database calls of the accumulator run on the thread
    of its aiosqlite connection, in the order in which they were queued; a
    call is modelled by the event that completes it, and a COMMIT that is
    queued when the accumulator is cancelled still runs.  Time is a logical
    clock counted in the unit of the [timeout=5] argument of
    [asyncio.wait_for]. *)

From Stdlib Require Import ZArith QArith List Bool Arith Lia.
Import ListNotations.

Close Scope Q_scope.
Open Scope nat_scope.

(** ** The [tasks] table *)

Inductive Status := pending | completed.

(** One row of
    [tasks (id INTEGER PRIMARY KEY, status TEXT, cpu_usage REAL, memory_usage REAL)].
    The two REAL columns hold rationals: no claim depends on rounding. *)
Record Row := mkRow {
  id : Z;
  status : Status;
  cpu_usage : Q;
  memory_usage : Q
}.

Definition Table := list Row.

(** The tuple [(task_id, cpu_usage, memory_usage)] put on [update_queue]. *)
Definition UpdateRecord := (Z * Q * Q)%type.

Definition rec_id (u : UpdateRecord) : Z := fst (fst u).
Definition rec_cpu (u : UpdateRecord) : Q := snd (fst u).
Definition rec_mem (u : UpdateRecord) : Q := snd u.

(** [CREATE TABLE IF NOT EXISTS tasks (...)]: [None] is a database file
    without the table. *)
Definition setup_database (db : option Table) : Table :=
  match db with
  | Some t => t
  | None => []
  end.

(** The largest rowid SQLite can assign: 2^63 - 1. *)
Definition MAX_ROWID : Z := 9223372036854775807.

(** The largest id in use in a table with the row [r] and the rows [rest]. *)
Definition largest_id (r : Row) (rest : Table) : Z :=
  fold_right (fun r0 m => Z.max (id r0) m) (id r) rest.

(** The rowid SQLite assigns to a row inserted without an id: 1 in an empty
    table, otherwise one more than the largest id in use, be it negative.
    That is SQLite's rule while the largest id in use is below [MAX_ROWID];
    at [MAX_ROWID] it tries unused rowids at random instead, which no
    function of the table follows: see [in_sequence]. *)
Definition next_rowid (t : Table) : Z :=
  match t with
  | [] => 1%Z
  | r :: rest => (largest_id r rest + 1)%Z
  end.

(** Inserting [n] rows into [t] one after the other never meets a largest
    id of [MAX_ROWID]: every one of them is numbered by the rule of
    [next_rowid].  What is stated of the ids of rows inserted into a table
    that is not fresh carries this as a hypothesis. *)
Definition in_sequence (n : nat) (t : Table) : bool :=
  match n with
  | O => true
  | S k => (next_rowid t + Z.of_nat k <=? MAX_ROWID)%Z
  end.

(** [INSERT INTO tasks (status, cpu_usage, memory_usage) VALUES ('pending', 0, 0)] *)
Definition insert_pending (t : Table) : Table :=
  t ++ [mkRow (next_rowid t) pending 0%Q 0%Q].

(** [populate_tasks], with the row count 1000 of the source as [n]. *)
Fixpoint populate_tasks (n : nat) (t : Table) : Table :=
  match n with
  | O => t
  | S k => populate_tasks k (insert_pending t)
  end.

(** [UPDATE tasks SET status = 'completed', cpu_usage = ?, memory_usage = ?
     WHERE id = ?] with the parameters [(cpu_usage, memory_usage, task_id)]. *)
Definition sql_update (u : UpdateRecord) (t : Table) : Table :=
  map (fun r =>
         if Z.eqb (id r) (rec_id u)
         then mkRow (id r) completed (rec_cpu u) (rec_mem u)
         else r) t.

(** The number of rows the statement changes (the cursor's [rowcount]). *)
Definition rowcount (u : UpdateRecord) (t : Table) : nat :=
  length (filter (fun r => Z.eqb (id r) (rec_id u)) t).

(** The [for task_id, cpu_usage, memory_usage in updates] loop of UPDATEs. *)
Definition apply_batch (updates : list UpdateRecord) (t : Table) : Table :=
  fold_left (fun t u => sql_update u t) updates t.

(** ** The channel: [update_queue = asyncio.Queue()] *)

Record Queue := mkQueue {
  maxsize : nat;
  items : list UpdateRecord;
  unfinished_tasks : nat
}.

(** [asyncio.Queue()] has [maxsize=0]. *)
Definition update_queue : Queue := mkQueue 0 [] 0.

(** [Queue.full]: a queue with [maxsize <= 0] is never full. *)
Definition full (q : Queue) : bool :=
  match maxsize q with
  | O => false
  | S _ => maxsize q <=? length (items q)
  end.

(** [Queue.put]: [None] when the caller has to wait for a free slot. *)
Definition put (q : Queue) (u : UpdateRecord) : option Queue :=
  if full q then None
  else Some (mkQueue (maxsize q) (items q ++ [u]) (S (unfinished_tasks q))).

(** [Queue.get]: [None] when the caller has to wait for an item. *)
Definition get (q : Queue) : option (UpdateRecord * Queue) :=
  match items q with
  | [] => None
  | u :: rest => Some (u, mkQueue (maxsize q) rest (unfinished_tasks q))
  end.

(** [Queue.task_done]. *)
Definition task_done (q : Queue) : Queue :=
  mkQueue (maxsize q) (items q) (pred (unfinished_tasks q)).

(** [Queue.join] returns once the counter of unfinished items is zero. *)
Definition join_ready (q : Queue) : bool :=
  unfinished_tasks q =? 0.

(** ** Workers: [process_task] *)

(** What psutil delivers to one worker: [cpu_percent()] and the resident set
    size in bytes, or [None] when a psutil call raises. *)
Definition Measurement := option (Q * Z).

Inductive Worker :=
| Sleeping                       (* await asyncio.sleep(0.1) *)
| Putting (u : UpdateRecord)     (* await update_queue.put(...) on a full queue *)
| Finished
| Failed.                        (* an exception left the coroutine *)

(** [memory_usage = process.memory_info().rss / (1024 * 1024)] *)
Definition memory_mb (rss : Z) : Q := Qmake rss 1048576.

(** The two psutil readings of [process_task], as the record it builds. *)
Definition sample (task_id : Z) (m : Measurement) : option UpdateRecord :=
  match m with
  | None => None
  | Some (cpu, rss) => Some (task_id, cpu, memory_mb rss)
  end.

(** The body of [process_task] after the sleep: read the usage, put the
    record.  There is no [try] in the function: a failing psutil call ends
    the coroutine with the exception and nothing is put. *)
Definition process_task (task_id : Z) (m : Measurement) (q : Queue)
  : Worker * Queue :=
  match sample task_id m with
  | None => (Failed, q)
  | Some u =>
      match put q u with
      | Some q' => (Finished, q')
      | None => (Putting u, q)
      end
  end.

(** ** The accumulator: [async_update_batch] *)

Definition MAX_BATCH : nat := 100.
Definition T_IDLE : nat := 5.

(** The suspension points of the coroutine, with its local [updates]. *)
Inductive Acc :=
| Connecting                                   (* async with aiosqlite.connect(...) *)
| Collect (updates : list UpdateRecord) (deadline : nat)
                                               (* await wait_for(update_queue.get(), timeout=5) *)
| Begin (updates : list UpdateRecord)          (* async with conn.execute("BEGIN") *)
| Updating (updates todo : list UpdateRecord)  (* await conn.execute("UPDATE ...") for the head of todo *)
| Committing (updates : list UpdateRecord)     (* await conn.commit() *)
| Closing (updates : list UpdateRecord)        (* leaving the BEGIN cursor's async with *)
| Raised                                       (* an exception left the coroutine *)
| Cancelled                                    (* CancelledError left the coroutine *)
| CommitQueued (updates : list UpdateRecord).  (* cancelled at await conn.commit(): the
                                                  coroutine only unwinds, the COMMIT
                                                  is still queued on the connection's
                                                  thread *)

Inductive Main :=
| MGather      (* await asyncio.gather( *tasks ) *)
| MJoin        (* await update_queue.join() *)
| MDone        (* main returned *)
| MFailed.     (* an exception left main *)

Inductive LogEntry :=
| LogBatch (n : nat)   (* "Batch update of {n} tasks completed" *)
| LogAllDone.          (* "All tasks processed and database updated." *)

Record State := mkState {
  now : nat;
  chan : Queue;
  workers : list (Z * Worker);
  acc : Acc;
  main : Main;
  committed : Table;                  (* tasks.db as any connection reads it *)
  txn : option Table;                 (* the open transaction of the accumulator's connection *)
  log : list LogEntry;
  published : list UpdateRecord;      (* history: every record ever put *)
  flushes : list (list UpdateRecord)  (* history: every batch committed *)
}.

Inductive Event :=
| EvTick                                   (* one unit of time passes *)
| EvWorker (task_id : Z) (m : Measurement) (* process_task(task_id) resumes *)
| EvGet                                    (* wait_for returns an item *)
| EvTimeout                                (* wait_for raises TimeoutError *)
| EvDb (ok : bool)                         (* the awaited, or queued, database call returns / raises *)
| EvMain.                                  (* main resumes *)

(** What the accumulator's connection reads. *)
Definition view (s : State) : Table :=
  match txn s with
  | Some t => t
  | None => committed s
  end.

(** The inner [while len(updates) < 100] test, taken after an append or at the
    start of a cycle: wait for the next item, or leave the loop.  Leaving it
    with a non-empty [updates] starts the flush. *)
Definition next_wait (t : nat) (updates : list UpdateRecord) : Acc :=
  if length updates <? MAX_BATCH then Collect updates (t + T_IDLE)
  else Begin updates.

(** [except asyncio.TimeoutError: pass], then [if updates:]. *)
Definition on_timeout (t : nat) (updates : list UpdateRecord) : Acc :=
  match updates with
  | [] => Collect [] (t + T_IDLE)
  | _ :: _ => Begin updates
  end.

Definition set_worker (tid : Z) (w : Worker) (ws : list (Z * Worker))
  : list (Z * Worker) :=
  map (fun p => if Z.eqb (fst p) tid then (fst p, w) else p) ws.

Definition get_worker (tid : Z) (ws : list (Z * Worker)) : option Worker :=
  option_map snd (find (fun p => Z.eqb (fst p) tid) ws).

(** The records the accumulator has taken off the queue and not yet
    committed. *)
Definition held (a : Acc) : list UpdateRecord :=
  match a with
  | Collect updates _ | Begin updates | Updating updates _ | Committing updates
  | CommitQueued updates =>
      updates
  | _ => []
  end.

Definition running (s : State) : bool :=
  match main s with
  | MGather | MJoin => true
  | MDone | MFailed => false
  end.

(** [process_task(task_id)] resumes from its sleep, or from a blocked put. *)
Definition step_worker (tid : Z) (m : Measurement) (s : State) : option State :=
  match get_worker tid (workers s) with
  | Some Sleeping =>
      let r := process_task tid m (chan s) in
      Some (mkState (now s) (snd r) (set_worker tid (fst r) (workers s))
              (acc s) (main s) (committed s) (txn s) (log s)
              (match fst r, sample tid m with
               | Finished, Some u => published s ++ [u]
               | _, _ => published s
               end)
              (flushes s))
  | Some (Putting u) =>
      match put (chan s) u with
      | Some q =>
          Some (mkState (now s) q (set_worker tid Finished (workers s)) (acc s)
                  (main s) (committed s) (txn s) (log s) (published s ++ [u])
                  (flushes s))
      | None => None
      end
  | _ => None
  end.

(** [task_update = await wait_for(update_queue.get(), timeout=5)];
    [updates.append(task_update)]; [update_queue.task_done()]. *)
Definition step_get (s : State) : option State :=
  match acc s with
  | Collect updates _ =>
      match get (chan s) with
      | Some (u, q) =>
          Some (mkState (now s) (task_done q) (workers s)
                  (next_wait (now s) (updates ++ [u])) (main s)
                  (committed s) (txn s) (log s) (published s) (flushes s))
      | None => None
      end
  | _ => None
  end.

(** The timer of [wait_for] fires: the queue stayed empty until the deadline. *)
Definition step_timeout (s : State) : option State :=
  match acc s with
  | Collect updates deadline =>
      match items (chan s) with
      | [] =>
          if deadline <=? now s then
            Some (mkState (now s) (chan s) (workers s)
                    (on_timeout (now s) updates) (main s)
                    (committed s) (txn s) (log s) (published s) (flushes s))
          else None
      | _ :: _ => None
      end
  | _ => None
  end.

(** An exception, or a cancellation, leaves [async with aiosqlite.connect]:
    the connection is closed and its open transaction is rolled back. *)
Definition abort (a : Acc) (s : State) : State :=
  mkState (now s) (chan s) (workers s) a (main s)
    (committed s) None (log s) (published s) (flushes s).

(** The awaited database call of the accumulator completes. *)
Definition step_db (ok : bool) (s : State) : option State :=
  match acc s with
  | Connecting =>
      if ok then
        Some (mkState (now s) (chan s) (workers s) (next_wait (now s) []) (main s)
                (committed s) (txn s) (log s) (published s) (flushes s))
      else Some (abort Raised s)
  | Begin updates =>
      if ok then
        Some (mkState (now s) (chan s) (workers s)
                (match updates with
                 | [] => Committing updates
                 | _ :: _ => Updating updates updates
                 end)
                (main s) (committed s) (Some (view s)) (log s) (published s)
                (flushes s))
      else Some (abort Raised s)
  | Updating updates (u :: todo) =>
      if ok then
        Some (mkState (now s) (chan s) (workers s)
                (match todo with
                 | [] => Committing updates
                 | _ :: _ => Updating updates todo
                 end)
                (main s) (committed s) (Some (sql_update u (view s))) (log s)
                (published s) (flushes s))
      else Some (abort Raised s)
  | Committing updates =>
      if ok then
        Some (mkState (now s) (chan s) (workers s) (Closing updates) (main s)
                (view s) None (log s) (published s) (flushes s ++ [updates]))
      else Some (abort Raised s)
  | Closing updates =>
      if ok then
        Some (mkState (now s) (chan s) (workers s) (next_wait (now s) []) (main s)
                (committed s) (txn s) (log s ++ [LogBatch (length updates)])
                (published s) (flushes s))
      else Some (abort Raised s)
  | _ => None
  end.

(** [batch_update_task.cancel()]: CancelledError is thrown into the coroutine
    at the await it is suspended at; a coroutine that already ended stays as
    it is.  The call the coroutine awaits was handed to the connection's
    thread before, and the cancellation does not take it back: a BEGIN or an
    UPDATE changes nothing that outlives the connection, but a COMMIT still
    runs, before the connection closes. *)
Definition cancel (a : Acc) : Acc :=
  match a with
  | Raised => Raised
  | Committing updates => CommitQueued updates
  | _ => Cancelled
  end.

(** What the cancellation leaves of the open transaction: the one whose
    COMMIT is queued stays open until that COMMIT has run; any other is
    rolled back when the connection closes. *)
Definition cancel_txn (a : Acc) (t : option Table) : option Table :=
  match a with
  | Committing _ => t
  | _ => None
  end.

Definition all_finished (ws : list (Z * Worker)) : bool :=
  forallb (fun p => match snd p with Finished => true | _ => false end) ws.

Definition some_failed (ws : list (Z * Worker)) : bool :=
  existsb (fun p => match snd p with Failed => true | _ => false end) ws.

(** [await update_queue.join()]; [batch_update_task.cancel()]; the final log
    line; return. *)
Definition finish_main (s : State) : State :=
  mkState (now s) (chan s) (workers s) (cancel (acc s)) MDone
    (committed s) (cancel_txn (acc s) (txn s)) (log s ++ [LogAllDone])
    (published s) (flushes s).

(** [main] resumes from [gather] or from [join]. *)
Definition step_main (s : State) : option State :=
  match main s with
  | MGather =>
      if some_failed (workers s) then
        (* gather re-raises the first exception; asyncio.run cancels what is left *)
        Some (mkState (now s) (chan s) (workers s) (cancel (acc s)) MFailed
                (committed s) (cancel_txn (acc s) (txn s)) (log s)
                (published s) (flushes s))
      else if all_finished (workers s) then
        if join_ready (chan s) then Some (finish_main s)
        else Some (mkState (now s) (chan s) (workers s) (acc s) MJoin
                     (committed s) (txn s) (log s) (published s) (flushes s))
      else None
  | MJoin =>
      if join_ready (chan s) then Some (finish_main s) else None
  | _ => None
  end.

(** Time passes, except past the deadline of a pending [wait_for] on an
    empty queue: its timer fires first. *)
Definition step_tick (s : State) : option State :=
  match acc s with
  | Collect _ deadline =>
      match items (chan s) with
      | [] =>
          if now s <? deadline then
            Some (mkState (S (now s)) (chan s) (workers s) (acc s) (main s)
                    (committed s) (txn s) (log s) (published s) (flushes s))
          else None
      | _ :: _ =>
          Some (mkState (S (now s)) (chan s) (workers s) (acc s) (main s)
                  (committed s) (txn s) (log s) (published s) (flushes s))
      end
  | _ =>
      Some (mkState (S (now s)) (chan s) (workers s) (acc s) (main s)
              (committed s) (txn s) (log s) (published s) (flushes s))
  end.

(** The COMMIT that a cancelled accumulator left queued runs on the
    connection's thread: it commits the batch, with no log line since the
    coroutine is gone, or it raises and the closing connection rolls the
    transaction back. *)
Definition step_queued (ok : bool) (s : State) : option State :=
  match acc s with
  | CommitQueued updates =>
      if ok then
        Some (mkState (now s) (chan s) (workers s) Cancelled (main s)
                (view s) None (log s) (published s) (flushes s ++ [updates]))
      else Some (abort Cancelled s)
  | _ => None
  end.

(** One resumption.  Once [main] has ended, [asyncio.run] cancels what is
    left and closes the loop: no coroutine runs any more, and all that can
    still happen is a COMMIT that was queued before. *)
Definition step (e : Event) (s : State) : option State :=
  if running s then
    match e with
    | EvTick => step_tick s
    | EvWorker tid m => step_worker tid m s
    | EvGet => step_get s
    | EvTimeout => step_timeout s
    | EvDb ok => step_db ok s
    | EvMain => step_main s
    end
  else
    match e with
    | EvDb ok => step_queued ok s
    | _ => None
    end.

Fixpoint exec (evs : list Event) (s : State) : option State :=
  match evs with
  | [] => Some s
  | e :: rest =>
      match step e s with
      | Some s' => exec rest s'
      | None => None
      end
  end.

(** [range(1, n + 1)] *)
Definition task_ids (n : nat) : list Z := map Z.of_nat (seq 1 n).

(** The state [main] is in when it first suspends, on a fresh database file:
    the table is set up and populated, the accumulator task is created, and
    one worker per task id is started and asleep.  The source has [n = 1000]. *)
Definition init (n : nat) : State :=
  mkState 0 update_queue (map (fun i => (i, Sleeping)) (task_ids n))
    Connecting MGather (populate_tasks n (setup_database None)) None [] [] [].

Definition N_TASKS : nat := 1000.

Definition reachable (n : nat) (s : State) : Prop :=
  exists evs, exec evs (init n) = Some s.

(** * What is stated of the pipeline: invariants, claims as worded, runs *)

(** ** The table *)

Definition seeded (r : Row) : Prop :=
  status r = pending /\ cpu_usage r = 0%Q /\ memory_usage r = 0%Q.

(** ** Structural invariants *)

Definition not_putting (p : Z * Worker) : Prop :=
  forall u, snd p <> Putting u.

(** The queue has no bound, its counter of unfinished items equals its
    length whenever a coroutine is suspended ([task_done] follows every [get]
    at once), the workers are those of [range(1, n + 1)], and none waits in
    [put]. *)
Record wf (n : nat) (s : State) : Prop := mkWf {
  wf_maxsize : maxsize (chan s) = 0;
  wf_unfinished : unfinished_tasks (chan s) = length (items (chan s));
  wf_workers : map fst (workers s) = task_ids n;
  wf_not_putting : Forall not_putting (workers s)
}.

(** ** The accumulator's batches *)

Definition batch_size_ok (b : list UpdateRecord) : Prop :=
  1 <= length b <= MAX_BATCH.

(** The batch in the accumulator's hands has room while it collects, and is
    non-empty and within [MAX_BATCH] while it is flushed; so is every batch
    that was committed. *)
Definition batch_ok (s : State) : Prop :=
  match acc s with
  | Collect updates _ => length updates < MAX_BATCH
  | Begin updates | Updating updates _ | Committing updates | Closing updates
  | CommitQueued updates =>
      batch_size_ok updates
  | _ => True
  end /\ Forall batch_size_ok (flushes s).

(** ** The flush transaction *)

(** Where the [for] loop over [updates] stands once the UPDATEs before
    [todo] have returned. *)
Definition after_updates (updates todo : list UpdateRecord) : Acc :=
  match todo with
  | [] => Committing updates
  | _ :: _ => Updating updates todo
  end.

(** The open transaction holds exactly the UPDATEs issued so far, on top of
    the committed table; outside a flush there is no open transaction. *)
Definition txn_ok (s : State) : Prop :=
  match acc s with
  | Updating updates todo =>
      todo <> [] /\
      exists issued,
        updates = issued ++ todo /\
        txn s = Some (apply_batch issued (committed s))
  | Committing updates | CommitQueued updates =>
      txn s = Some (apply_batch updates (committed s))
  | _ => txn s = None
  end.

(** ** Row by row *)

(** What a batch makes of one row. *)
Definition row_update (u : UpdateRecord) (r : Row) : Row :=
  if Z.eqb (id r) (rec_id u)
  then mkRow (id r) completed (rec_cpu u) (rec_mem u)
  else r.

Definition row_after (updates : list UpdateRecord) (r : Row) : Row :=
  fold_left (fun r u => row_update u r) updates r.

(** The rows a batch names. *)
Definition touched (updates : list UpdateRecord) (t : Table) : nat :=
  length (filter (fun r => existsb (fun u => Z.eqb (id r) (rec_id u)) updates) t).

(** ** Once [main] has ended *)

(** [main] ends only after cancelling the accumulator: what is left of it
    is nothing, or a queued COMMIT. *)
Definition halted_ok (s : State) : Prop :=
  running s = false ->
  acc s = Raised \/ acc s = Cancelled \/
  exists updates, acc s = CommitQueued updates.

(** ** Publication *)

(** Every published record comes from a worker that has finished, no task
    id is published twice, and the records the accumulator holds or the
    queue buffers are published records with distinct ids. *)
Record pub_ok (s : State) : Prop := mkPubOk {
  pub_finished :
    forall tid, In tid (map rec_id (published s)) ->
                get_worker tid (workers s) = Some Finished;
  pub_nodup : NoDup (map rec_id (published s));
  pub_unflushed : incl (held (acc s) ++ items (chan s)) (published s);
  pub_unflushed_nodup : NoDup (map rec_id (held (acc s) ++ items (chan s)))
}.

(** ** Rows *)

(** A row is as it was seeded, or it is completed with the usage of a
    published record of its task. *)
Definition row_ok (pub : list UpdateRecord) (r : Row) : Prop :=
  seeded r \/
  (status r = completed /\ In (id r, cpu_usage r, memory_usage r) pub).

Record rows_ok (s : State) : Prop := mkRowsOk {
  rows_committed : Forall (row_ok (published s)) (committed s);
  rows_txn : forall t, txn s = Some t -> Forall (row_ok (published s)) t;
  rows_unflushed :
    forall u r, In u (held (acc s) ++ items (chan s)) -> In r (committed s) ->
                id r = rec_id u -> status r = pending
}.

(** ** Row ids *)

(** No statement of the pipeline inserts or deletes: the table keeps the
    seeded ids. *)
Definition ids_ok (n : nat) (s : State) : Prop :=
  map id (committed s) = task_ids n /\
  forall t, txn s = Some t -> map id t = task_ids n.

(** ** The invariant of the pipeline *)

Record inv (n : nat) (s : State) : Prop := mkInv {
  inv_wf : wf n s;
  inv_batch : batch_ok s;
  inv_txn : txn_ok s;
  inv_halted : halted_ok s;
  inv_ids : ids_ok n s;
  inv_pub : pub_ok s;
  inv_rows : rows_ok s
}.

(** ** Scenarios *)

(** One psutil reading: 12.5 percent CPU, 50 MB resident. *)
Definition reading : Measurement := Some (Qmake 25 2, 52428800%Z).

(** The state a run ends in. *)
Definition final (evs : list Event) (s : State) : State :=
  match exec evs s with
  | Some s' => s'
  | None => s
  end.

(** One task: its record is taken off the queue, the wait times out, and
    the flush of the one-record batch is about to start. *)
Definition run_to_begin : list Event :=
  [EvDb true; EvWorker 1 reading; EvGet] ++ repeat EvTick T_IDLE ++ [EvTimeout].

Definition st_begin : State := Eval vm_compute in final run_to_begin (init 1).

(** ** An id that matches no row *)

(** The accumulator about to flush a batch whose second record names task
    7, on a table with rows 1 and 2. *)
Definition st_unmatched : State :=
  mkState 0 update_queue []
    (Begin [(1%Z, Qmake 25 2, memory_mb 52428800);
            (7%Z, Qmake 25 2, memory_mb 52428800);
            (2%Z, Qmake 25 2, memory_mb 52428800)])
    MGather (populate_tasks 2 (setup_database None)) None [] [] [].

(** ** A storage fault during a flush *)

(** The accumulator awaits a database call of a flush. *)
Definition flushing (a : Acc) : bool :=
  match a with
  | Begin _ | Updating _ _ | Committing _ => true
  | _ => false
  end.

(** The claim as the specification words it: after a fault in a flush the
    accumulator is accumulating again. *)
Definition flush_fault_resilience : Prop :=
  forall n s s',
    reachable n s -> flushing (acc s) = true ->
    step (EvDb false) s = Some s' ->
    exists deadline, acc s' = Collect [] deadline.

(** ** A failing measurement *)

(** The claim as the specification words it: with the measurement failing,
    the worker still puts the task's record, with zeroed usage. *)
Definition absorbs_measurement_fault (task_id : Z) (q : Queue) : Prop :=
  exists q',
    process_task task_id None q = (Finished, q') /\
    items q' = items q ++ [(task_id, 0%Q, 0%Q)].

(** [main] waits in [join] only after every worker has finished. *)
Definition join_ok (s : State) : Prop :=
  main s = MJoin -> all_finished (workers s) = true.

(** ** The size of the channel *)

(** The claim as the specification words it: one bound on the number of
    buffered records, whatever the number of producers. *)
Definition bounded_channel : Prop :=
  exists bound, forall n s, reachable n s -> length (items (chan s)) <= bound.

(** Every worker puts its record before the accumulator takes any. *)
Definition run_flood (n : nat) : list Event :=
  map (fun i => EvWorker i reading) (task_ids n).

(** ** The life of a task row *)

(** One task flushed: the run to the start of its flush, then BEGIN, the
    UPDATE, COMMIT and the close of the cursor. *)
Definition run_one_flushed : list Event := run_to_begin ++ repeat (EvDb true) 4.

Definition st_flushed : State :=
  Eval vm_compute in final run_one_flushed (init 1).

(** ** The two cutoffs of a batch *)

(** Every event but a worker's: nothing arrives on the channel. *)
Definition no_arrival (e : Event) : bool :=
  match e with
  | EvWorker _ _ => false
  | _ => true
  end.

(** One task: its record is on the queue, the accumulator waits. *)
Definition st_one_queued : State :=
  Eval vm_compute in final [EvDb true; EvWorker 1 reading] (init 1).

(** The accumulator waits for a further record with the non-empty batch
    [updates] in its hands, the queue is empty, the deadline of the wait
    has not passed, and [main] has not ended. *)
Definition waiting (updates : list UpdateRecord) (deadline : nat) (s : State)
  : Prop :=
  acc s = Collect updates deadline /\ items (chan s) = [] /\
  now s <= deadline /\ running s = true.

(** The flush of a batch with the record [u] in it has been started. *)
Definition flush_started (u : UpdateRecord) (s : State) : Prop :=
  In u (concat (flushes s)) \/
  (flushing (acc s) = true /\ In u (held (acc s))).

(** No database call raises. *)
Definition no_db_fault (e : Event) : bool :=
  match e with
  | EvDb false => false
  | _ => true
  end.

(** The second half of the claim as the specification words it, counted
    from the arrival of the record on the channel: once a record has been
    put and nothing further arrives, the clock does not get more than
    [T_IDLE] past that arrival without the flush of the batch with that
    record having been started; stated of the runs in which no database
    call raises and [main] has not ended. *)
Definition idle_cutoff_from_arrival : Prop :=
  forall n s tid m u s1 evs s2,
    reachable n s ->
    step (EvWorker tid m) s = Some s1 -> sample tid m = Some u ->
    forallb no_arrival evs = true -> forallb no_db_fault evs = true ->
    exec evs s1 = Some s2 -> running s2 = true ->
    now s1 + T_IDLE < now s2 ->
    flush_started u s2.

(** 1000 tasks: the connection is open, the workers 1 to 999 have put
    their records, the accumulator has taken the first hundred and started
    their flush, whose BEGIN has returned, and one time unit has passed
    since. *)
Definition run_to_last_put : list Event :=
  [EvDb true] ++ run_flood 999 ++ repeat EvGet MAX_BATCH
  ++ [EvDb true; EvTick].

Definition st_last_to_put : State :=
  Eval vm_compute in final run_to_last_put (init N_TASKS).

(** After the last arrival [main] leaves [gather] and waits in [join], and
    [T_IDLE] + 1 time units later the first UPDATE of the flush that was
    under way has not returned (the database file is locked by another
    connection, for which the UPDATE waits up to [timeout=30]). *)
Definition run_slow_begin : list Event :=
  [EvMain] ++ repeat EvTick (S T_IDLE).

Definition st_slow_begin : State :=
  Eval vm_compute in
    final (EvWorker 1000 reading :: run_slow_begin) st_last_to_put.

(** ** The idle-timeout cutoff *)

Definition idle_rounds (k : nat) : list Event :=
  concat (repeat (repeat EvTick T_IDLE ++ [EvTimeout]) k).

(** Three records are waiting, the producers stall: the records are taken,
    the wait times out, the batch is flushed, and [k] more idle periods
    pass. *)
Definition run_stalled (k : nat) : list Event :=
  repeat EvGet 3 ++ repeat EvTick T_IDLE ++ [EvTimeout]
  ++ repeat (EvDb true) 6 ++ idle_rounds k.

(** Where a pipeline with the batch [b] published and no further arrival
    can be: collecting [b], flushing it, done with it, cancelled with its
    COMMIT queued, or ended. *)
Inductive stalled_phase (f0 : list (list UpdateRecord))
  (b : list UpdateRecord) (s : State) : Prop :=
| PhCollect (pre : list UpdateRecord) (d : nat) :
    acc s = Collect pre d -> pre ++ items (chan s) = b -> flushes s = f0 ->
    stalled_phase f0 b s
| PhBegin :
    acc s = Begin b -> items (chan s) = [] -> flushes s = f0 ->
    stalled_phase f0 b s
| PhUpdating (todo : list UpdateRecord) :
    acc s = Updating b todo -> items (chan s) = [] -> flushes s = f0 ->
    stalled_phase f0 b s
| PhCommitting :
    acc s = Committing b -> items (chan s) = [] -> flushes s = f0 ->
    stalled_phase f0 b s
| PhClosing :
    acc s = Closing b -> items (chan s) = [] -> flushes s = f0 ++ [b] ->
    stalled_phase f0 b s
| PhIdle (d : nat) :
    acc s = Collect [] d -> items (chan s) = [] -> flushes s = f0 ++ [b] ->
    stalled_phase f0 b s
| PhQueued :
    acc s = CommitQueued b -> items (chan s) = [] -> flushes s = f0 ->
    stalled_phase f0 b s
| PhEnded :
    acc s = Raised \/ acc s = Cancelled ->
    flushes s = f0 \/ flushes s = f0 ++ [b] ->
    stalled_phase f0 b s.

(** Four tasks, three of them published; the accumulator waits. *)
Definition st_three_queued : State :=
  Eval vm_compute in
    final [EvDb true; EvWorker 1 reading; EvWorker 2 reading;
           EvWorker 3 reading] (init 4).

(** ** The run of [main] with 1000 tasks and no gap *)

Definition is_completed (r : Row) : bool :=
  match status r with
  | completed => true
  | pending => false
  end.

Definition count_completed (t : Table) : nat := length (filter is_completed t).

Definition pending_ids (t : Table) : list Z :=
  map id (filter (fun r => negb (is_completed r)) t).

(** One full batch: [MAX_BATCH] records are taken, then BEGIN, the UPDATEs,
    COMMIT and the close of the cursor return. *)
Definition run_cycle : list Event :=
  repeat EvGet MAX_BATCH ++ repeat (EvDb true) (MAX_BATCH + 3).

(** The connection opens; every worker wakes and puts its record; [main]
    leaves [gather] and waits in [join]; the accumulator takes and flushes
    nine full batches; it takes the last hundred records, calling
    [task_done] for each, and awaits the BEGIN of their flush; [main], whose
    [join] is satisfied since the last [task_done], resumes.  No database
    call raises, no measurement fails, and no time passes. *)
Definition run_no_gap_to_last_begin : list Event :=
  [EvDb true] ++ run_flood N_TASKS ++ [EvMain]
  ++ concat (repeat run_cycle 9) ++ repeat EvGet MAX_BATCH.

Definition run_no_gap : list Event := run_no_gap_to_last_begin ++ [EvMain].

Definition st_last_begin : State :=
  Eval vm_compute in final run_no_gap_to_last_begin (init N_TASKS).

Definition st_end : State := Eval vm_compute in final [EvMain] st_last_begin.

(** No fault and no idle gap. *)
Definition fault_free (e : Event) : bool :=
  match e with
  | EvDb false | EvWorker _ None | EvTick | EvTimeout => false
  | _ => true
  end.

(** ** [main] on a database file that may exist already *)

(** The state [main] is in when it first suspends, whatever the database
    file held before: [setup_database] keeps an existing table,
    [populate_tasks] adds [n] rows to it, and the workers are started with
    the ids of [range(1, n + 1)] all the same.  Both calls run before any
    task exists; a run in which one of them raises (a locked or unwritable
    file) ends [main] there and never gets to this state: what is stated of
    the runs from [main_start] is stated of the runs in which lines 92 and
    93 have returned. *)
Definition main_start (db : option Table) (n : nat) : State :=
  mkState 0 update_queue (map (fun i => (i, Sleeping)) (task_ids n))
    Connecting MGather (populate_tasks n (setup_database db)) None [] [] [].

(** The accumulator coroutine has not ended: neither an exception nor a
    cancellation has taken it out of its loop. *)
Definition alive (a : Acc) : bool :=
  match a with
  | Raised | Cancelled | CommitQueued _ => false
  | _ => true
  end.

(** Nothing is left of the accumulator: the coroutine is out of its loop
    and no COMMIT of it is queued. *)
Definition settled (a : Acc) : bool :=
  match a with
  | Raised | Cancelled => true
  | _ => false
  end.

(** The counts of the "Batch update of ... tasks completed" lines. *)
Definition batch_counts (l : list LogEntry) : list nat :=
  flat_map (fun e => match e with
                     | LogBatch k => [k]
                     | LogAllDone => []
                     end) l.

(** The batch that is committed and whose log line is still to come. *)
Definition unlogged (a : Acc) : list nat :=
  match a with
  | Closing updates => [length updates]
  | _ => []
  end.

(** The last record of a batch that names the row [tid]. *)
Definition last_match (tid : Z) (updates : list UpdateRecord)
  : option UpdateRecord :=
  find (fun u => Z.eqb tid (rec_id u)) (rev updates).

(** What every run of [main] keeps, from the table [t0] it starts on: the
    structural invariants; the records in publication order are the flushed
    ones, then the held ones, then the queued ones, as long as something is
    left of the accumulator; the committed table is
    [t0] with the flushed records applied; the log reports the committed
    batches in order, lacking at most the last; a finished worker has
    published; and [main] returns only with every worker finished and the
    queue empty, its last log line being the final one. *)
Record run_inv (n : nat) (t0 : Table) (s : State) : Prop := mkRunInv {
  ri_wf : wf n s;
  ri_txn : txn_ok s;
  ri_pub : pub_ok s;
  ri_halted : halted_ok s;
  ri_join : join_ok s;
  ri_fifo :
    settled (acc s) = false ->
    concat (flushes s) ++ held (acc s) ++ items (chan s) = published s;
  ri_prefix : exists rest, published s = concat (flushes s) ++ rest;
  ri_table : committed s = apply_batch (concat (flushes s)) t0;
  ri_log :
    exists tail,
      batch_counts (log s) ++ tail = map (@length UpdateRecord) (flushes s) /\
      length tail <= 1 /\
      (settled (acc s) = false -> tail = unlogged (acc s));
  ri_finished :
    forall tid, get_worker tid (workers s) = Some Finished ->
                In tid (map rec_id (published s));
  ri_done :
    main s = MDone ->
    all_finished (workers s) = true /\ items (chan s) = [] /\
    exists l, log s = l ++ [LogAllDone]
}.

(** ** Runs of [main] on an existing database, and runs that end *)

(** The database file a run that flushed task 1 leaves behind. *)
Definition db_after_one_task : option Table := Some (committed st_flushed).

(** The script run again on that file, its one task flushed again. *)
Definition st_rerun : State :=
  Eval vm_compute in final run_one_flushed (main_start db_after_one_task 1).

(** Two tasks; opening the connection fails, then worker 1 puts its
    record. *)
Definition run_fault_then_put : list Event := [EvDb false; EvWorker 1 reading].

Definition st_fault_queued : State :=
  Eval vm_compute in final run_fault_then_put (init 2).

(** One task; its record is taken and [main] returns before any flush. *)
Definition run_returned : list Event :=
  [EvDb true; EvWorker 1 reading; EvGet; EvMain].

Definition st_returned : State := Eval vm_compute in final run_returned (init 1).

(** Two tasks: the record of task 1 is flushed as far as its COMMIT; then
    the measurement of task 2 fails, [gather] raises in [main], and the
    accumulator is cancelled with that COMMIT queued. *)
Definition run_commit_queued : list Event :=
  [EvDb true; EvWorker 1 reading; EvGet] ++ repeat EvTick T_IDLE
  ++ [EvTimeout; EvDb true; EvDb true; EvWorker 2 None; EvMain].

Definition st_commit_queued : State :=
  Eval vm_compute in final run_commit_queued (init 2).

(** The final log line is written by [main]'s return and by nothing else;
    [main] fails only on a failed worker. *)
Definition exit_ok (s : State) : Prop :=
  (In LogAllDone (log s) -> main s = MDone) /\
  (main s = MFailed -> some_failed (workers s) = true).

(** * Executions *)

Lemma exec_app (evs1 evs2 : list Event) (s : State) :
  exec (evs1 ++ evs2) s =
  match exec evs1 s with
  | Some s' => exec evs2 s'
  | None => None
  end.
Proof.
  revert s; induction evs1 as [|e evs1 IH]; intros s; simpl.
  - reflexivity.
  - destruct (step e s); [apply IH | reflexivity].
Qed.

Lemma exec_snoc (evs : list Event) (e : Event) (s s' : State) :
  exec (evs ++ [e]) s = Some s' <->
  exists s1, exec evs s = Some s1 /\ step e s1 = Some s'.
Proof.
  rewrite exec_app. destruct (exec evs s) as [s1|]; simpl.
  - destruct (step e s1) as [s2|] eqn:E; split.
    + intros H; exists s1; split; congruence.
    + intros (s3 & H1 & H2). congruence.
    + discriminate.
    + intros (s3 & H1 & H2). congruence.
  - split; [discriminate | intros (s1 & H & _); discriminate].
Qed.

Lemma reachable_init (n : nat) : reachable n (init n).
Proof. exists []. reflexivity. Qed.

Lemma reachable_step (n : nat) (s s' : State) (e : Event) :
  reachable n s -> step e s = Some s' -> reachable n s'.
Proof.
  intros [evs H] Hs. exists (evs ++ [e]). apply exec_snoc. eauto.
Qed.

Lemma reachable_exec (n : nat) (evs : list Event) (s s' : State) :
  reachable n s -> exec evs s = Some s' -> reachable n s'.
Proof.
  intros [evs0 H] Hs. exists (evs0 ++ evs). rewrite exec_app, H. exact Hs.
Qed.

(** Induction over the reachable states. *)
Lemma reachable_ind' (n : nat) (P : State -> Prop) :
  P (init n) ->
  (forall s e s', reachable n s -> P s -> step e s = Some s' -> P s') ->
  forall s, reachable n s -> P s.
Proof.
  intros H0 Hstep s [evs H]. revert s H.
  induction evs as [|e evs IH] using rev_ind; intros s H.
  - simpl in H. injection H as <-. exact H0.
  - apply exec_snoc in H. destruct H as (s1 & H1 & H2).
    apply (Hstep s1 e s); [exists evs; exact H1 | apply IH; exact H1 | exact H2].
Qed.

(** An invariant of every step is an invariant of every execution. *)
Lemma exec_invariant (P : State -> Prop) :
  (forall s e s', P s -> step e s = Some s' -> P s') ->
  forall evs s s', P s -> exec evs s = Some s' -> P s'.
Proof.
  intros Hstep evs. induction evs as [|e evs IH]; intros s s' Hs H; simpl in H.
  - injection H as <-. exact Hs.
  - destruct (step e s) as [s1|] eqn:E; [|discriminate]. eauto.
Qed.

(** Conjunctions of closed equations, each settled by evaluation. *)
Ltac by_evaluation :=
  repeat match goal with
    | |- _ /\ _ => split
    end;
  vm_compute; reflexivity.

(** * The channel *)

Lemma get_inv (q q' : Queue) (u : UpdateRecord) :
  get q = Some (u, q') ->
  exists rest,
    items q = u :: rest /\ q' = mkQueue (maxsize q) rest (unfinished_tasks q).
Proof.
  unfold get. destruct (items q) as [|u0 rest]; [discriminate|].
  intros H. injection H as -> <-. exists rest. split; reflexivity.
Qed.

Lemma put_inv (q q' : Queue) (u : UpdateRecord) :
  put q u = Some q' ->
  full q = false /\
  q' = mkQueue (maxsize q) (items q ++ [u]) (S (unfinished_tasks q)).
Proof.
  unfold put. destruct (full q); [discriminate|].
  intros H. injection H as <-. split; reflexivity.
Qed.

(** A queue built without [maxsize] is never full: [put] never waits. *)
Lemma put_unbounded (q : Queue) (u : UpdateRecord) :
  maxsize q = 0 ->
  put q u = Some (mkQueue 0 (items q ++ [u]) (S (unfinished_tasks q))).
Proof. intros H. unfold put, full. rewrite H. reflexivity. Qed.

Lemma process_task_unbounded (tid : Z) (m : Measurement) (q : Queue) :
  maxsize q = 0 ->
  process_task tid m q =
  match sample tid m with
  | None => (Failed, q)
  | Some u => (Finished, mkQueue 0 (items q ++ [u]) (S (unfinished_tasks q)))
  end.
Proof.
  intros H. unfold process_task. destruct (sample tid m) as [u|]; [|reflexivity].
  rewrite put_unbounded by exact H. reflexivity.
Qed.

(** Case analysis of one step: every enabled branch of [step], with the
    successor state written out; the two outcomes of a queued COMMIT come
    last.  A worker's step is left folded, for [step_worker_inv] below. *)
Ltac step_inv H :=
  unfold step in H;
  match type of H with
  | (if running ?s then _ else _) = _ =>
      let Hrun := fresh "Hrun" in
      destruct (running s) eqn:Hrun
  end;
  try match type of H with
    | match ?e with _ => _ end = _ => destruct e
    end;
  try discriminate H;
  try unfold step_queued in H;
  try unfold step_tick in H;
  try unfold step_get in H;
  try unfold step_timeout in H;
  try unfold step_db in H;
  try unfold step_main in H;
  try unfold abort in H;
  try unfold finish_main in H;
  match type of H with
  | step_worker _ _ _ = _ => idtac
  | _ =>
      repeat match type of H with
        | context [match ?x with _ => _ end] =>
            first
              [ is_var x; destruct x
              | let y := fresh "y" in
                let E := fresh "E" in
                remember x as y eqn:E in H; symmetry in E; destruct y ]
        | context [if ?x then _ else _] =>
            let y := fresh "y" in
            let E := fresh "E" in
            remember x as y eqn:E in H; symmetry in E; destruct y
        end;
      try discriminate H;
      injection H as <-;
      repeat match goal with
        | E : ?v = (_, _) |- _ => is_var v; subst v
        end;
      repeat match goal with
        | E : get _ = Some (_, _) |- _ =>
            let rest := fresh "rest" in
            let Hi := fresh "Hitems" in
            apply get_inv in E; destruct E as (rest & Hi & ->)
        end;
      simpl in *
  end.

(** * The table *)

Lemma sql_update_ids (u : UpdateRecord) (t : Table) :
  map id (sql_update u t) = map id t.
Proof.
  unfold sql_update. rewrite map_map. apply map_ext.
  intros r. destruct (Z.eqb (id r) (rec_id u)); reflexivity.
Qed.

Lemma apply_batch_ids (updates : list UpdateRecord) (t : Table) :
  map id (apply_batch updates t) = map id t.
Proof.
  revert t; induction updates as [|u us IH]; intros t; simpl.
  - reflexivity.
  - unfold apply_batch in *. simpl. rewrite IH. apply sql_update_ids.
Qed.

Lemma apply_batch_app (l1 l2 : list UpdateRecord) (t : Table) :
  apply_batch (l1 ++ l2) t = apply_batch l2 (apply_batch l1 t).
Proof. unfold apply_batch. apply fold_left_app. Qed.

Lemma apply_batch_cons (u : UpdateRecord) (l : list UpdateRecord) (t : Table) :
  apply_batch (u :: l) t = apply_batch l (sql_update u t).
Proof. reflexivity. Qed.

(** An UPDATE whose id matches no row changes nothing. *)
Lemma sql_update_unmatched (u : UpdateRecord) (t : Table) :
  ~ In (rec_id u) (map id t) -> sql_update u t = t.
Proof.
  intros H. unfold sql_update. rewrite <- (map_id t) at 2.
  apply map_ext_in. intros r Hr.
  destruct (Z.eqb_spec (id r) (rec_id u)) as [E|E]; [|reflexivity].
  exfalso. apply H. rewrite <- E. apply in_map. exact Hr.
Qed.

Lemma rowcount_unmatched (u : UpdateRecord) (t : Table) :
  ~ In (rec_id u) (map id t) -> rowcount u t = 0.
Proof.
  intros H. unfold rowcount. induction t as [|r t IH]; simpl in *.
  - reflexivity.
  - destruct (Z.eqb_spec (id r) (rec_id u)) as [E|E].
    + exfalso. apply H. left. exact E.
    + apply IH. intros Hin. apply H. right. exact Hin.
Qed.

(** A primary key matches at most one row. *)
Lemma rowcount_le_1 (u : UpdateRecord) (t : Table) :
  NoDup (map id t) -> rowcount u t <= 1.
Proof.
  unfold rowcount. induction t as [|r t IH]; simpl; intros H.
  - lia.
  - inversion H as [|x l Hx Hl]; subst.
    destruct (Z.eqb_spec (id r) (rec_id u)) as [E|E]; simpl.
    + assert (Hz : filter (fun r0 => Z.eqb (id r0) (rec_id u)) t = []).
      { rewrite E in Hx. apply rowcount_unmatched in Hx.
        apply length_zero_iff_nil. exact Hx. }
      rewrite Hz. simpl. lia.
    + apply IH. exact Hl.
Qed.

Lemma largest_id_ge (r : Row) (rest : Table) (r0 : Row) :
  In r0 (r :: rest) -> (id r0 <= largest_id r rest)%Z.
Proof.
  unfold largest_id. induction rest as [|x rest IH]; simpl.
  - intros [->|[]]. lia.
  - intros [->|[->|H]].
    + assert (Hr : (id r0 <= fold_right (fun r1 m => Z.max (id r1) m) (id r0) rest)%Z)
        by (apply IH; left; reflexivity).
      lia.
    + lia.
    + assert (Hr : (id r0 <= fold_right (fun r1 m => Z.max (id r1) m) (id r) rest)%Z)
        by (apply IH; right; exact H).
      lia.
Qed.

(** The largest id in use is the id of a row of the table. *)
Lemma largest_id_in (r : Row) (rest : Table) :
  exists r0, In r0 (r :: rest) /\ largest_id r rest = id r0.
Proof.
  unfold largest_id. induction rest as [|x rest IH]; simpl.
  - exists r. split; [left; reflexivity | reflexivity].
  - destruct IH as (r0 & Hin & E).
    destruct (Z.max_spec (id x) (fold_right (fun r1 m => Z.max (id r1) m) (id r) rest))
      as [[_ Hm]|[_ Hm]]; rewrite Hm.
    + exists r0. split; [|exact E]. simpl in Hin. destruct Hin as [Hin|Hin];
        [left; exact Hin | right; right; exact Hin].
    + exists x. split; [right; left; reflexivity | reflexivity].
Qed.

Lemma largest_id_snoc (r : Row) (rest : Table) (x : Row) :
  largest_id r (rest ++ [x]) = Z.max (largest_id r rest) (id x).
Proof.
  unfold largest_id. induction rest as [|y rest IH]; simpl.
  - lia.
  - rewrite IH. lia.
Qed.

(** Every id in use is below the next rowid. *)
Lemma next_rowid_gt (t : Table) (r : Row) :
  In r t -> (id r < next_rowid t)%Z.
Proof.
  destruct t as [|r1 rest]; simpl; intros H.
  - contradiction.
  - pose proof (largest_id_ge r1 rest r H). lia.
Qed.

(** After an INSERT the next rowid is one more. *)
Lemma next_rowid_insert (t : Table) :
  next_rowid (insert_pending t) = (next_rowid t + 1)%Z.
Proof.
  unfold insert_pending. destruct t as [|r rest]; simpl.
  - reflexivity.
  - rewrite largest_id_snoc. simpl. lia.
Qed.

Lemma populate_tasks_closed_form (n : nat) (t : Table) :
  populate_tasks n t =
  t ++ map (fun i => mkRow (next_rowid t + Z.of_nat i) pending 0%Q 0%Q)
         (seq 0 n).
Proof.
  revert t. induction n as [|n IH]; intros t.
  - simpl. symmetry. apply app_nil_r.
  - cbn [populate_tasks]. rewrite IH, next_rowid_insert. unfold insert_pending.
    rewrite <- app_assoc. f_equal. cbn [seq map app]. f_equal.
    + f_equal. lia.
    + rewrite <- seq_shift, map_map. apply map_ext. intros i.
      f_equal. lia.
Qed.

Lemma populate_tasks_ids (n : nat) (t : Table) :
  map id (populate_tasks n t) =
  map id t ++ map (fun i => (next_rowid t + Z.of_nat i)%Z) (seq 0 n).
Proof.
  rewrite populate_tasks_closed_form, map_app, map_map. reflexivity.
Qed.

(** On a fresh database the seeded ids are exactly the ids the workers are
    started with. *)
Lemma populate_fresh_ids (n : nat) :
  map id (populate_tasks n (setup_database None)) = task_ids n.
Proof.
  rewrite populate_tasks_ids. cbn [setup_database map app]. unfold task_ids.
  rewrite <- seq_shift, map_map. apply map_ext. intros i.
  change (next_rowid []) with 1%Z. lia.
Qed.

Lemma populate_tasks_seeded (n : nat) (t : Table) :
  Forall seeded t -> Forall seeded (populate_tasks n t).
Proof.
  revert t; induction n as [|n IH]; intros t H; simpl.
  - exact H.
  - apply IH. unfold insert_pending. apply Forall_app. split; [exact H|].
    constructor; [|constructor]. repeat split.
Qed.

Lemma task_ids_NoDup (n : nat) : NoDup (task_ids n).
Proof.
  unfold task_ids. apply NoDup_map_NoDup_ForallPairs.
  - intros a b _ _ H. lia.
  - apply seq_NoDup.
Qed.

Lemma task_ids_length (n : nat) : length (task_ids n) = n.
Proof. unfold task_ids. rewrite length_map, length_seq. reflexivity. Qed.

(** * Workers *)

Lemma set_worker_ids (tid : Z) (w : Worker) (ws : list (Z * Worker)) :
  map fst (set_worker tid w ws) = map fst ws.
Proof.
  unfold set_worker. rewrite map_map. apply map_ext.
  intros p. destruct (Z.eqb (fst p) tid); reflexivity.
Qed.

Lemma get_worker_In (tid : Z) (w : Worker) (ws : list (Z * Worker)) :
  get_worker tid ws = Some w -> In (tid, w) ws.
Proof.
  unfold get_worker. destruct (find _ ws) as [p|] eqn:E; [|discriminate].
  simpl. intros H. injection H as <-. apply find_some in E.
  destruct E as [Hin Hid]. apply Z.eqb_eq in Hid. subst tid.
  destruct p; exact Hin.
Qed.

Lemma get_worker_id (tid : Z) (w : Worker) (ws : list (Z * Worker)) :
  get_worker tid ws = Some w -> In tid (map fst ws).
Proof.
  intros H. apply get_worker_In in H. apply (in_map fst) in H. exact H.
Qed.

Lemma get_set_worker_same (tid : Z) (w w0 : Worker) (ws : list (Z * Worker)) :
  get_worker tid ws = Some w0 -> get_worker tid (set_worker tid w ws) = Some w.
Proof.
  unfold get_worker, set_worker. induction ws as [|p ws IH]; simpl.
  - discriminate.
  - destruct (Z.eqb_spec (fst p) tid) as [E|E]; simpl.
    + rewrite E, Z.eqb_refl. reflexivity.
    + destruct (Z.eqb_spec (fst p) tid); [contradiction|]. exact IH.
Qed.

Lemma get_set_worker_other (tid tid' : Z) (w : Worker) (ws : list (Z * Worker)) :
  tid' <> tid -> get_worker tid' (set_worker tid w ws) = get_worker tid' ws.
Proof.
  intros Hne. unfold get_worker, set_worker. induction ws as [|p ws IH]; simpl.
  - reflexivity.
  - destruct (Z.eqb_spec (fst p) tid) as [E|E]; simpl.
    + destruct (Z.eqb_spec (fst p) tid') as [E'|E']; [congruence|].
      rewrite <- IH. reflexivity.
    + destruct (Z.eqb_spec (fst p) tid') as [E'|E']; [reflexivity|].
      rewrite <- IH. reflexivity.
Qed.

Lemma set_worker_Forall (P : Z * Worker -> Prop) (tid : Z) (w : Worker)
  (ws : list (Z * Worker)) :
  Forall P ws -> (forall i, P (i, w)) -> Forall P (set_worker tid w ws).
Proof.
  intros H Hw. unfold set_worker. apply Forall_map.
  eapply Forall_impl; [|exact H]. intros p Hp.
  destruct (Z.eqb (fst p) tid); [apply Hw | exact Hp].
Qed.

Lemma sample_id (tid : Z) (m : Measurement) (u : UpdateRecord) :
  sample tid m = Some u -> rec_id u = tid.
Proof.
  unfold sample. destruct m as [[cpu rss]|]; [|discriminate].
  intros H. injection H as <-. reflexivity.
Qed.

(** * Structural invariants *)

(** The two ways a worker's step goes on an unbounded queue. *)
Lemma step_worker_inv (n : nat) (tid : Z) (m : Measurement) (s s' : State) :
  wf n s ->
  step_worker tid m s = Some s' ->
  get_worker tid (workers s) = Some Sleeping /\
  ((sample tid m = None /\
    s' = mkState (now s) (chan s) (set_worker tid Failed (workers s)) (acc s)
           (main s) (committed s) (txn s) (log s) (published s) (flushes s))
   \/
   (exists u, sample tid m = Some u /\
    s' = mkState (now s)
           (mkQueue 0 (items (chan s) ++ [u]) (S (unfinished_tasks (chan s))))
           (set_worker tid Finished (workers s)) (acc s)
           (main s) (committed s) (txn s) (log s) (published s ++ [u])
           (flushes s))).
Proof.
  intros Hwf H. unfold step_worker in H.
  destruct (get_worker tid (workers s)) as [w|] eqn:Hw; [|discriminate].
  destruct w as [|u| |]; try discriminate.
  - split; [reflexivity|].
    rewrite (process_task_unbounded _ _ _ (wf_maxsize _ _ Hwf)) in H.
    destruct (sample tid m) as [u|]; simpl in H; injection H as <-.
    + right. exists u. split; reflexivity.
    + left. split; reflexivity.
  - exfalso. apply get_worker_In in Hw.
    pose proof (wf_not_putting _ _ Hwf) as Hnp.
    rewrite Forall_forall in Hnp. apply (Hnp _ Hw u). reflexivity.
Qed.

Ltac worker_inv n H Hwf :=
  let Hw := fresh "Hsleep" in
  let u := fresh "u" in
  let Hs := fresh "Hsample" in
  apply (step_worker_inv n _ _ _ _ Hwf) in H;
  destruct H as [Hw [[Hs ->]|(u & Hs & ->)]]; simpl in *.

Lemma wf_init (n : nat) : wf n (init n).
Proof.
  constructor; simpl.
  - reflexivity.
  - reflexivity.
  - rewrite map_map. simpl. apply map_id.
  - apply Forall_map. apply Forall_forall. intros i _ u. discriminate.
Qed.

Lemma wf_step (n : nat) (e : Event) (s s' : State) :
  wf n s -> step e s = Some s' -> wf n s'.
Proof.
  intros Hwf H. destruct Hwf as [Hm Hu Hw Hp].
  step_inv H; try (constructor; simpl; assumption).
  - worker_inv n H (mkWf n s Hm Hu Hw Hp).
    + constructor; simpl; try assumption.
      * rewrite set_worker_ids. exact Hw.
      * apply set_worker_Forall; [exact Hp|]. intros i u. discriminate.
    + constructor; simpl.
      * reflexivity.
      * rewrite length_app, Hu. simpl. lia.
      * rewrite set_worker_ids. exact Hw.
      * apply set_worker_Forall; [exact Hp|]. intros i u0. discriminate.
  - constructor; simpl; try assumption.
    rewrite Hitems in Hu. simpl in Hu. rewrite Hu. reflexivity.
Qed.

Lemma wf_reachable (n : nat) (s : State) : reachable n s -> wf n s.
Proof.
  revert s. apply reachable_ind'.
  - apply wf_init.
  - intros s e s' _ IH Hs. exact (wf_step n e s s' IH Hs).
Qed.

(** A worker's step touches the queue, the worker table and the history of
    published records, and nothing else. *)
Lemma step_worker_frame (tid : Z) (m : Measurement) (s s' : State) :
  step_worker tid m s = Some s' ->
  now s' = now s /\ acc s' = acc s /\ main s' = main s /\
  committed s' = committed s /\ txn s' = txn s /\ log s' = log s /\
  flushes s' = flushes s.
Proof.
  unfold step_worker. destruct (get_worker tid (workers s)) as [[|u| |]|];
    try discriminate.
  - intros H. injection H as <-. simpl. repeat split.
  - destruct (put (chan s) u); [|discriminate].
    intros H. injection H as <-. simpl. repeat split.
Qed.

Ltac worker_frame H :=
  let H1 := fresh "Fnow" in
  let H2 := fresh "Facc" in
  let H3 := fresh "Fmain" in
  let H4 := fresh "Fcommitted" in
  let H5 := fresh "Ftxn" in
  let H6 := fresh "Flog" in
  let H7 := fresh "Fflushes" in
  apply step_worker_frame in H;
  destruct H as (H1 & H2 & H3 & H4 & H5 & H6 & H7).

(** Bring what the case analysis learnt about [acc s] to the hypotheses. *)
Ltac use_acc :=
  repeat match goal with
    | E : acc ?s = _, H : context [acc ?s] |- _ =>
        lazymatch H with
        | E => fail
        | _ => rewrite E in H
        end
    end.

(** * The accumulator's batches *)

Lemma next_wait_room (t : nat) (updates : list UpdateRecord) :
  length updates < MAX_BATCH ->
  next_wait t updates = Collect updates (t + T_IDLE).
Proof.
  intros H. unfold next_wait. apply Nat.ltb_lt in H. rewrite H. reflexivity.
Qed.

Lemma next_wait_full (t : nat) (updates : list UpdateRecord) :
  MAX_BATCH <= length updates -> next_wait t updates = Begin updates.
Proof.
  intros H. unfold next_wait. apply Nat.ltb_ge in H. rewrite H. reflexivity.
Qed.

Lemma MAX_BATCH_pos : 0 < MAX_BATCH.
Proof. unfold MAX_BATCH. lia. Qed.

Lemma batch_ok_step (e : Event) (s s' : State) :
  batch_ok s -> step e s = Some s' -> batch_ok s'.
Proof.
  unfold batch_ok, batch_size_ok. intros [Ha Hf] H.
  step_inv H; use_acc;
    try (worker_frame H; rewrite Facc, Fflushes);
    (split;
     [| first [ assumption
              | apply Forall_app; split;
                [assumption | constructor; [assumption | constructor]] ]]);
    try assumption; try apply MAX_BATCH_pos;
    try (destruct (acc s); simpl in *; first [exact I | assumption]).
  - destruct (Nat.lt_ge_cases (length (updates ++ [u])) MAX_BATCH) as [L|L].
    + rewrite next_wait_room by exact L. exact L.
    + rewrite next_wait_full by exact L. rewrite length_app in *. simpl in *. lia.
  - destruct updates as [|u us]; simpl.
    + apply MAX_BATCH_pos.
    + simpl in Ha. lia.
Qed.

Lemma batch_ok_init (n : nat) : batch_ok (init n).
Proof. split; simpl; [exact I | constructor]. Qed.

Lemma batch_ok_reachable (n : nat) (s : State) : reachable n s -> batch_ok s.
Proof.
  revert s. apply reachable_ind'.
  - apply batch_ok_init.
  - intros s e s' _ IH Hs. exact (batch_ok_step e s s' IH Hs).
Qed.

(** * The flush transaction *)

Lemma txn_ok_step (e : Event) (s s' : State) :
  txn_ok s -> step e s = Some s' -> txn_ok s'.
Proof.
  unfold txn_ok. intros Ht H.
  step_inv H; use_acc; unfold view; try rewrite Ht; simpl;
    try (worker_frame H; rewrite Facc, Ftxn, Fcommitted);
    try assumption; try reflexivity;
    try (destruct (acc s); simpl in *; first [reflexivity | assumption]).
  - unfold next_wait. destruct (_ <? _); reflexivity.
  - unfold on_timeout. destruct updates; reflexivity.
  - split; [discriminate|]. exists []. split; reflexivity.
  - destruct Ht as (_ & issued & -> & Ht). rewrite Ht.
    rewrite apply_batch_app. reflexivity.
  - destruct Ht as (_ & issued & -> & Ht). rewrite Ht.
    split; [discriminate|]. exists (issued ++ [u]). split.
    + rewrite <- app_assoc. reflexivity.
    + rewrite apply_batch_app. reflexivity.
Qed.

Lemma txn_ok_init (n : nat) : txn_ok (init n).
Proof. reflexivity. Qed.

Lemma txn_ok_reachable (n : nat) (s : State) : reachable n s -> txn_ok s.
Proof.
  revert s. apply reachable_ind'.
  - apply txn_ok_init.
  - intros s e s' _ IH Hs. exact (txn_ok_step e s s' IH Hs).
Qed.

(** Every step leaves the committed table as it is, except a COMMIT that
    goes through, awaited by the accumulator or left queued by its
    cancellation, which installs the whole batch. *)
Lemma step_all_or_none (e : Event) (s s' : State) :
  txn_ok s -> step e s = Some s' ->
  (committed s' = committed s /\ flushes s' = flushes s) \/
  (exists updates,
     (acc s = Committing updates \/ acc s = CommitQueued updates) /\
     e = EvDb true /\
     committed s' = apply_batch updates (committed s) /\
     flushes s' = flushes s ++ [updates]).
Proof.
  unfold txn_ok. intros Ht H.
  step_inv H; use_acc;
    try (worker_frame H; left; split; assumption);
    try (left; split; reflexivity);
    right; exists updates; unfold view; rewrite Ht;
    (split; [auto | repeat split]).
Qed.

(** A raising database call ends the coroutine; the connection is closed
    with nothing of the open transaction committed. *)
Lemma step_fault (s s' : State) :
  flushing (acc s) = true -> step (EvDb false) s = Some s' ->
  acc s' = Raised /\ txn s' = None /\ committed s' = committed s /\
  flushes s' = flushes s /\ log s' = log s /\ chan s' = chan s.
Proof.
  intros Hf H. step_inv H; try (rewrite E in Hf; discriminate Hf); repeat split.
Qed.

(** ** The accumulator's moves, one rule per suspension point *)

Lemma rule_get (s : State) (updates rest : list UpdateRecord) (u : UpdateRecord)
  (deadline : nat) :
  running s = true -> acc s = Collect updates deadline ->
  items (chan s) = u :: rest ->
  step EvGet s =
  Some (mkState (now s)
          (mkQueue (maxsize (chan s)) rest (pred (unfinished_tasks (chan s))))
          (workers s) (next_wait (now s) (updates ++ [u])) (main s)
          (committed s) (txn s) (log s) (published s) (flushes s)).
Proof.
  intros Hr Ha Hi. unfold step, step_get, get. rewrite Hr, Ha, Hi. reflexivity.
Qed.

Lemma rule_timeout (s : State) (updates : list UpdateRecord) (deadline : nat) :
  running s = true -> acc s = Collect updates deadline ->
  items (chan s) = [] -> deadline <= now s ->
  step EvTimeout s =
  Some (mkState (now s) (chan s) (workers s) (on_timeout (now s) updates)
          (main s) (committed s) (txn s) (log s) (published s) (flushes s)).
Proof.
  intros Hr Ha Hi Hd. unfold step, step_timeout. rewrite Hr, Ha, Hi.
  apply Nat.leb_le in Hd. rewrite Hd. reflexivity.
Qed.

Lemma rule_tick_wait (s : State) (updates : list UpdateRecord) (deadline : nat) :
  running s = true -> acc s = Collect updates deadline ->
  items (chan s) = [] -> now s < deadline ->
  step EvTick s =
  Some (mkState (S (now s)) (chan s) (workers s) (acc s) (main s)
          (committed s) (txn s) (log s) (published s) (flushes s)).
Proof.
  intros Hr Ha Hi Hd. unfold step, step_tick. rewrite Hr, Ha, Hi.
  apply Nat.ltb_lt in Hd. rewrite Hd. reflexivity.
Qed.

(** At the deadline of a wait on an empty queue, time does not pass before
    the timer has fired. *)
Lemma rule_tick_deadline (s : State) (updates : list UpdateRecord)
  (deadline : nat) :
  acc s = Collect updates deadline -> items (chan s) = [] ->
  deadline <= now s -> step EvTick s = None.
Proof.
  intros Ha Hi Hd. unfold step, step_tick. rewrite Ha, Hi.
  apply Nat.ltb_ge in Hd. rewrite Hd. destruct (running s); reflexivity.
Qed.

Lemma rule_begin (s : State) (updates : list UpdateRecord) :
  running s = true -> acc s = Begin updates ->
  step (EvDb true) s =
  Some (mkState (now s) (chan s) (workers s) (after_updates updates updates)
          (main s) (committed s) (Some (view s)) (log s) (published s)
          (flushes s)).
Proof.
  intros Hr Ha. unfold step, step_db. rewrite Hr, Ha. reflexivity.
Qed.

Lemma rule_update (s : State) (updates todo : list UpdateRecord)
  (u : UpdateRecord) :
  running s = true -> acc s = Updating updates (u :: todo) ->
  step (EvDb true) s =
  Some (mkState (now s) (chan s) (workers s) (after_updates updates todo)
          (main s) (committed s) (Some (sql_update u (view s))) (log s)
          (published s) (flushes s)).
Proof.
  intros Hr Ha. unfold step, step_db. rewrite Hr, Ha. reflexivity.
Qed.

Lemma rule_commit (s : State) (updates : list UpdateRecord) :
  running s = true -> acc s = Committing updates ->
  step (EvDb true) s =
  Some (mkState (now s) (chan s) (workers s) (Closing updates) (main s)
          (view s) None (log s) (published s) (flushes s ++ [updates])).
Proof.
  intros Hr Ha. unfold step, step_db. rewrite Hr, Ha. reflexivity.
Qed.

Lemma rule_close (s : State) (updates : list UpdateRecord) :
  running s = true -> acc s = Closing updates ->
  step (EvDb true) s =
  Some (mkState (now s) (chan s) (workers s) (Collect [] (now s + T_IDLE))
          (main s) (committed s) (txn s)
          (log s ++ [LogBatch (length updates)]) (published s) (flushes s)).
Proof.
  intros Hr Ha. unfold step, step_db. rewrite Hr, Ha. reflexivity.
Qed.

Lemma rule_fault (s : State) :
  running s = true ->
  match acc s with
  | Connecting | Begin _ | Updating _ (_ :: _) | Committing _ | Closing _ => True
  | _ => False
  end ->
  step (EvDb false) s = Some (abort Raised s).
Proof.
  intros Hr Ha. unfold step, step_db. rewrite Hr.
  destruct (acc s) as [| | |? [|]| | | | |]; try contradiction; reflexivity.
Qed.

(** The UPDATEs of [issued] return one after the other. *)
Lemma exec_updates (issued todo updates : list UpdateRecord) (s : State)
  (t : Table) :
  running s = true ->
  acc s = after_updates updates (issued ++ todo) ->
  txn s = Some t ->
  exec (repeat (EvDb true) (length issued)) s =
  Some (mkState (now s) (chan s) (workers s) (after_updates updates todo)
          (main s) (committed s) (Some (apply_batch issued t)) (log s)
          (published s) (flushes s)).
Proof.
  revert s t. induction issued as [|u issued IH]; intros s t Hr Ha Ht.
  - simpl in *. destruct s; simpl in *. subst. reflexivity.
  - simpl in Ha. cbn [length repeat exec].
    rewrite (rule_update s updates (issued ++ todo) u Hr Ha).
    rewrite (IH _ (sql_update u t)); simpl; try assumption; try reflexivity.
    unfold view. rewrite Ht. reflexivity.
Qed.

(** A flush in which every database call returns: BEGIN, one UPDATE per
    record, COMMIT, and the cursor's close; then the log line, and the
    accumulator waits for the next item with an empty [updates]. *)
Lemma flush_ok (s : State) (updates : list UpdateRecord) :
  running s = true -> acc s = Begin updates -> txn s = None ->
  exec (repeat (EvDb true) (length updates + 3)) s =
  Some (mkState (now s) (chan s) (workers s) (Collect [] (now s + T_IDLE))
          (main s) (apply_batch updates (committed s)) None
          (log s ++ [LogBatch (length updates)]) (published s)
          (flushes s ++ [updates])).
Proof.
  intros Hr Ha Ht.
  replace (length updates + 3) with (1 + (length updates + 2)) by lia.
  rewrite repeat_app, exec_app. cbn [repeat exec].
  rewrite (rule_begin s updates Hr Ha).
  rewrite repeat_app, exec_app.
  rewrite (exec_updates updates [] updates _ (committed s)); simpl;
    try assumption; try (rewrite app_nil_r; reflexivity).
  2: { unfold view. rewrite Ht. reflexivity. }
  rewrite rule_commit with (updates := updates); simpl; try assumption;
    try reflexivity.
  rewrite rule_close with (updates := updates); simpl; try assumption;
    reflexivity.
Qed.

(** A flush that fails: BEGIN and [k - 1] UPDATEs return, the next call (an
    UPDATE, or the COMMIT) raises; with [k = 0] it is BEGIN that raises. *)
Lemma flush_fault (s : State) (updates : list UpdateRecord) (k : nat) :
  running s = true -> acc s = Begin updates -> txn s = None ->
  k <= length updates + 1 ->
  exec (repeat (EvDb true) k ++ [EvDb false]) s =
  Some (mkState (now s) (chan s) (workers s) Raised (main s) (committed s) None
          (log s) (published s) (flushes s)).
Proof.
  intros Hr Ha Ht Hk. destruct k as [|k].
  - simpl. rewrite rule_fault; [reflexivity | exact Hr | rewrite Ha; exact I].
  - change (S k) with (1 + k). rewrite repeat_app, <- app_assoc, exec_app.
    cbn [repeat exec]. rewrite (rule_begin s updates Hr Ha).
    rewrite exec_app.
    assert (Hsplit : updates = firstn k updates ++ skipn k updates)
      by (symmetry; apply firstn_skipn).
    assert (Hlen : length (firstn k updates) = k)
      by (rewrite length_firstn; lia).
    rewrite <- Hlen at 1.
    rewrite (exec_updates (firstn k updates) (skipn k updates) updates _
               (committed s)); simpl; try assumption.
    + rewrite rule_fault; simpl; [reflexivity | exact Hr |].
      unfold after_updates. destruct (skipn k updates); exact I.
    + rewrite <- Hsplit. reflexivity.
    + unfold view. rewrite Ht. reflexivity.
Qed.

(** ** Row by row *)

Lemma apply_batch_rowwise (updates : list UpdateRecord) (t : Table) :
  apply_batch updates t = map (row_after updates) t.
Proof.
  revert t. induction updates as [|u us IH]; intros t.
  - simpl. symmetry. apply map_id.
  - rewrite apply_batch_cons, IH. unfold sql_update. rewrite map_map.
    reflexivity.
Qed.

Lemma row_update_id (u : UpdateRecord) (r : Row) : id (row_update u r) = id r.
Proof. unfold row_update. destruct (Z.eqb _ _); reflexivity. Qed.

Lemma row_after_id (updates : list UpdateRecord) (r : Row) :
  id (row_after updates r) = id r.
Proof.
  revert r. induction updates as [|u us IH]; intros r; simpl.
  - reflexivity.
  - unfold row_after in *. simpl. rewrite IH. apply row_update_id.
Qed.

(** A row whose id no record of the batch names is left as it is. *)
Lemma row_after_untouched (updates : list UpdateRecord) (r : Row) :
  ~ In (id r) (map rec_id updates) -> row_after updates r = r.
Proof.
  revert r. induction updates as [|u us IH]; intros r H; simpl.
  - reflexivity.
  - unfold row_after in *. simpl.
    assert (E : row_update u r = r).
    { unfold row_update. destruct (Z.eqb_spec (id r) (rec_id u)) as [E|E].
      - exfalso. apply H. left. symmetry. exact E.
      - reflexivity. }
    rewrite E. apply IH. intros Hin. apply H. right. exact Hin.
Qed.

(** A record whose id matches no row can be dropped from the batch. *)
Lemma apply_batch_skip (l1 l2 : list UpdateRecord) (u : UpdateRecord)
  (t : Table) :
  ~ In (rec_id u) (map id t) ->
  apply_batch (l1 ++ u :: l2) t = apply_batch (l1 ++ l2) t.
Proof.
  intros H. rewrite !apply_batch_app, apply_batch_cons.
  rewrite sql_update_unmatched; [reflexivity|].
  rewrite apply_batch_ids. exact H.
Qed.

(** Selecting rows keeps the primary key a key. *)
Lemma filter_ids_NoDup (keep : Row -> bool) (t : Table) :
  NoDup (map id t) -> NoDup (map id (filter keep t)).
Proof.
  intros Hkey. induction t as [|r t IH]; simpl in *.
  - constructor.
  - inversion Hkey as [|x l' Hx Hl]; subst.
    destruct (keep r); simpl.
    + constructor; [|apply IH; exact Hl].
      intros Hin. apply Hx. apply in_map_iff in Hin.
      destruct Hin as (r0 & Hr0 & Hin). apply filter_In in Hin.
      rewrite <- Hr0. apply in_map. tauto.
    + apply IH. exact Hl.
Qed.

(** With a primary key, a batch names at most as many rows as it has
    records. *)
Lemma touched_le (updates : list UpdateRecord) (t : Table) :
  NoDup (map id t) -> touched updates t <= length updates.
Proof.
  intros H. unfold touched.
  rewrite <- (length_map id), <- (length_map rec_id updates).
  apply NoDup_incl_length.
  - apply filter_ids_NoDup. exact H.
  - intros i Hi. apply in_map_iff in Hi. destruct Hi as (r & <- & Hr).
    apply filter_In in Hr. destruct Hr as [_ Hr].
    apply existsb_exists in Hr. destruct Hr as (u & Hu & E).
    apply Z.eqb_eq in E. rewrite E. apply in_map. exact Hu.
Qed.

(** ** Once [main] has ended *)

Lemma cancel_dead (a : Acc) :
  cancel a = Raised \/ cancel a = Cancelled \/
  exists updates, cancel a = CommitQueued updates.
Proof. destruct a; simpl; eauto. Qed.

(** Once [main] has ended, the one step that is left is the queued COMMIT,
    and it leaves the queue, the workers and the log as they are. *)
Lemma halted_step (e : Event) (s s' : State) :
  running s = false -> step e s = Some s' ->
  exists ok updates,
    e = EvDb ok /\ acc s = CommitQueued updates /\ acc s' = Cancelled /\
    main s' = main s /\ now s' = now s /\ chan s' = chan s /\
    workers s' = workers s /\ log s' = log s /\ published s' = published s.
Proof.
  intros Hr H. unfold step in H. rewrite Hr in H.
  destruct e as [| | | |ok|]; try discriminate H.
  unfold step_queued in H. destruct (acc s) as [| | | | | | | |updates];
    try discriminate H.
  exists ok, updates. destruct ok; injection H as <-; simpl; repeat split.
Qed.

Lemma running_back (e : Event) (s s' : State) :
  step e s = Some s' -> running s' = true -> running s = true.
Proof.
  intros H Hr. destruct (running s) eqn:E; [reflexivity|].
  destruct (halted_step e s s' E H) as (ok & updates & _ & _ & _ & Hm & _).
  unfold running in *. rewrite Hm in Hr. congruence.
Qed.

Lemma halted_ok_step (e : Event) (s s' : State) :
  halted_ok s -> step e s = Some s' -> halted_ok s'.
Proof.
  unfold halted_ok, running. intros Hh H.
  step_inv H; try (worker_frame H; rewrite Fmain, Facc); intros Hr;
    try apply cancel_dead;
    try (unfold running in Hrun; rewrite Hr in Hrun; discriminate Hrun);
    try discriminate Hr;
    try solve [simpl; auto].
  all: unfold running in Hrun; destruct (main s); discriminate.
Qed.

Lemma halted_ok_reachable (n : nat) (s : State) : reachable n s -> halted_ok s.
Proof.
  revert s. apply reachable_ind'.
  - intros H. discriminate H.
  - intros s e s' _ IH Hs. exact (halted_ok_step e s s' IH Hs).
Qed.

Lemma reachable_flush_running (n : nat) (s : State) (updates : list UpdateRecord) :
  reachable n s -> acc s = Begin updates -> running s = true.
Proof.
  intros Hr Ha. destruct (running s) eqn:E; [reflexivity|].
  destruct (halted_ok_reachable n s Hr E) as [H|[H|[u H]]]; congruence.
Qed.

(** * Publication *)

Lemma held_next_wait (t : nat) (updates : list UpdateRecord) :
  held (next_wait t updates) = updates.
Proof. unfold next_wait. destruct (_ <? _); reflexivity. Qed.

Lemma held_on_timeout (t : nat) (updates : list UpdateRecord) :
  held (on_timeout t updates) = updates.
Proof. destruct updates; reflexivity. Qed.

(** The cancellation lets go of what the accumulator held, unless the
    COMMIT of it is queued. *)
Lemma held_cancel (a : Acc) : held (cancel a) = [] \/ held (cancel a) = held a.
Proof. destruct a; simpl; auto. Qed.

Lemma cancel_txn_keeps (a : Acc) (t : option Table) :
  cancel_txn a t = None \/ cancel_txn a t = t.
Proof. destruct a; simpl; auto. Qed.

Lemma NoDup_app_l {A : Type} (l1 l2 : list A) : NoDup (l1 ++ l2) -> NoDup l2.
Proof.
  induction l1 as [|a l1 IH]; simpl; intros H; [exact H|].
  inversion H; subst. auto.
Qed.

Lemma NoDup_snoc {A : Type} (l : list A) (a : A) :
  NoDup l -> ~ In a l -> NoDup (l ++ [a]).
Proof.
  induction l as [|b l IH]; simpl; intros Hl Ha.
  - constructor; [intros [] | constructor].
  - inversion Hl as [|x l' Hb Hl']; subst. constructor.
    + intros Hin. apply in_app_or in Hin. destruct Hin as [Hin|[->|[]]].
      * contradiction.
      * apply Ha. left. reflexivity.
    + apply IH; [exact Hl' | tauto].
Qed.

(** The accumulator lets go of what it held. *)
Ltac drop_held Hun Hund :=
  constructor; simpl; try assumption;
  try match goal with
    | |- context [held (cancel ?a)] =>
        let Hc := fresh "Hc" in
        destruct (held_cancel a) as [Hc|Hc]; rewrite Hc; simpl;
        try assumption
    end;
  [ eapply incl_tran; [|exact Hun]; apply incl_appr; apply incl_refl
  | rewrite map_app in Hund; apply NoDup_app_l in Hund; exact Hund ].

Lemma pub_ok_init (n : nat) : pub_ok (init n).
Proof.
  constructor; simpl.
  - intros tid [].
  - constructor.
  - intros u [].
  - constructor.
Qed.

Lemma pub_ok_step (n : nat) (e : Event) (s s' : State) :
  wf n s -> pub_ok s -> step e s = Some s' -> pub_ok s'.
Proof.
  intros Hwf [Hfin Hnd Hun Hund] H.
  step_inv H; use_acc; simpl in *;
    try (constructor; simpl; assumption).
  - (* a worker *)
    worker_inv n H Hwf.
    + constructor; simpl; try assumption.
      intros tid' Hin. pose proof (Hfin tid' Hin) as Hf.
      rewrite get_set_worker_other; [exact Hf|].
      intros ->. congruence.
    + pose proof (sample_id _ _ _ Hsample) as Hid.
      assert (Hfresh : ~ In task_id (map rec_id (published s))).
      { intros Hin. apply Hfin in Hin. congruence. }
      constructor; simpl.
      * intros tid' Hin. rewrite map_app in Hin. apply in_app_or in Hin.
        destruct (Z.eq_dec tid' task_id) as [->|Hne].
        -- eapply get_set_worker_same; eassumption.
        -- rewrite get_set_worker_other by exact Hne. apply Hfin.
           destruct Hin as [Hin|[Hin|[]]]; [exact Hin|].
           simpl in Hin. congruence.
      * rewrite map_app. simpl. rewrite Hid.
        apply NoDup_snoc; assumption.
      * rewrite app_assoc. apply incl_app.
        -- apply incl_appl. exact Hun.
        -- apply incl_appr. apply incl_refl.
      * rewrite app_assoc, map_app. simpl. rewrite Hid.
        apply NoDup_snoc; [exact Hund|]. intros Hin. apply Hfresh.
        apply in_map_iff in Hin. destruct Hin as (u0 & <- & Hin).
        apply in_map. apply Hun. exact Hin.
  - (* get *)
    rewrite Hitems in *.
    constructor; simpl; try assumption; rewrite held_next_wait, <- app_assoc;
      assumption.
  - (* timeout *)
    constructor; simpl; try assumption; rewrite held_on_timeout; assumption.
  - drop_held Hun Hund.
  - drop_held Hun Hund.
  - drop_held Hun Hund.
  - drop_held Hun Hund.
  - drop_held Hun Hund.
  - drop_held Hun Hund.
  - drop_held Hun Hund.
  - drop_held Hun Hund.
  - drop_held Hun Hund.
Qed.

(** * Rows *)

Lemma row_ok_mono (pub pub' : list UpdateRecord) (r : Row) :
  incl pub pub' -> row_ok pub r -> row_ok pub' r.
Proof.
  intros Hi [H|[H1 H2]]; [left; exact H | right; split; auto].
Qed.

Lemma row_update_ok (pub : list UpdateRecord) (u : UpdateRecord) (r : Row) :
  In u pub -> row_ok pub r -> row_ok pub (row_update u r).
Proof.
  intros Hu Hr. unfold row_update.
  destruct (Z.eqb_spec (id r) (rec_id u)) as [E|E]; [|exact Hr].
  right. simpl. split; [reflexivity|]. rewrite E.
  destruct u as [[i c] m]. exact Hu.
Qed.

Lemma sql_update_ok (pub : list UpdateRecord) (u : UpdateRecord) (t : Table) :
  In u pub -> Forall (row_ok pub) t -> Forall (row_ok pub) (sql_update u t).
Proof.
  intros Hu Ht. unfold sql_update. apply Forall_map.
  eapply Forall_impl; [|exact Ht]. intros r Hr.
  apply (row_update_ok pub u r Hu Hr).
Qed.

Lemma rows_ok_init (n : nat) : rows_ok (init n).
Proof.
  constructor; simpl.
  - eapply Forall_impl; [|apply populate_tasks_seeded; constructor].
    intros r Hr. left. exact Hr.
  - discriminate.
  - intros u r Hin. destruct Hin.
Qed.

Lemma view_ok (s : State) :
  rows_ok s -> Forall (row_ok (published s)) (view s).
Proof.
  intros [Hc Ht _]. unfold view. destruct (txn s) as [t|]; auto.
Qed.

(** A record queued behind a batch names no row of that batch. *)
Lemma queued_not_in_batch (updates queued : list UpdateRecord)
  (u : UpdateRecord) :
  NoDup (map rec_id updates ++ map rec_id queued) -> In u queued ->
  ~ In (rec_id u) (map rec_id updates).
Proof.
  intros Hund Hu. induction updates as [|u0 us IH]; simpl in *; [tauto|].
  inversion Hund as [|x l Hx Hl]; subst. intros [E|Hin].
  - apply Hx. rewrite E. apply in_or_app. right. apply in_map. exact Hu.
  - apply IH; assumption.
Qed.

(** The rows after a COMMIT that went through. *)
Ltac rows_committed Htx Hk Hund :=
  constructor; simpl; try assumption; try discriminate;
  let u := fresh "u" in
  let r := fresh "r" in
  let Hu := fresh "Hu" in
  let Hr := fresh "Hr" in
  let Hrid := fresh "Hrid" in
  let r0 := fresh "r0" in
  let Hr0 := fresh "Hr0" in
  intros u r Hu Hr Hrid; unfold view in Hr; rewrite Htx in Hr;
  rewrite apply_batch_rowwise in Hr; apply in_map_iff in Hr;
  destruct Hr as (r0 & <- & Hr0); rewrite row_after_id in Hrid;
  rewrite row_after_untouched;
  [ apply (Hk u r0); [|exact Hr0 | exact Hrid];
    apply in_or_app; right; exact Hu
  | rewrite Hrid; rewrite map_app in Hund;
    eapply queued_not_in_batch; eassumption ].

(** The rows after a cancellation. *)
Ltac rows_cancelled Ht Hk :=
  constructor; simpl; try assumption;
  [ let t := fresh "t" in
    let Et := fresh "Et" in
    let Hc := fresh "Hc" in
    intros t Et;
    match type of Et with
    | cancel_txn ?a ?o = _ =>
        destruct (cancel_txn_keeps a o) as [Hc|Hc]; rewrite Hc in Et;
        [discriminate Et | exact (Ht t Et)]
    end
  | let u := fresh "u" in
    let r := fresh "r" in
    let Hu := fresh "Hu" in
    let Hc := fresh "Hc" in
    intros u r Hu; apply Hk; apply in_app_or in Hu;
    destruct Hu as [Hu|Hu]; apply in_or_app; [left | right; exact Hu];
    match type of Hu with
    | In _ (held (cancel ?a)) =>
        destruct (held_cancel a) as [Hc|Hc]; rewrite Hc in Hu;
        [destruct Hu | exact Hu]
    end ].

Lemma rows_ok_step (n : nat) (e : Event) (s s' : State) :
  wf n s -> txn_ok s -> pub_ok s -> rows_ok s ->
  step e s = Some s' -> rows_ok s'.
Proof.
  intros Hwf Htx Hpub Hrows H.
  pose proof (view_ok s Hrows) as Hview.
  destruct Hrows as [Hc Ht Hk]. destruct Hpub as [Hfin Hnd Hun Hund].
  unfold txn_ok in Htx.
  step_inv H; use_acc; simpl in *;
    try (constructor; simpl; try discriminate; assumption);
    try solve [ constructor; simpl; rewrite ?held_cancel; simpl;
                try assumption; try discriminate;
                intros u0 r0 Hu0; apply Hk; apply in_or_app; right;
                exact Hu0 ].
  - (* a worker *)
    worker_inv n H Hwf.
    + constructor; simpl; assumption.
    + pose proof (sample_id _ _ _ Hsample) as Hid.
      assert (Hinc : incl (published s) (published s ++ [u]))
        by (apply incl_appl; apply incl_refl).
      constructor; simpl.
      * eapply Forall_impl; [|exact Hc]. intros r. apply row_ok_mono. exact Hinc.
      * intros t Et. eapply Forall_impl; [|exact (Ht t Et)].
        intros r. apply row_ok_mono. exact Hinc.
      * intros u0 r Hin Hr Hrid. rewrite app_assoc in Hin.
        apply in_app_or in Hin. destruct Hin as [Hin|[<-|[]]].
        -- eapply Hk; eassumption.
        -- rewrite Forall_forall in Hc. destruct (Hc r Hr) as [Hs|[_ Hp]].
           ++ apply Hs.
           ++ exfalso. apply (in_map rec_id) in Hp. unfold rec_id in Hp at 1.
              simpl in Hp. rewrite Hrid, Hid in Hp. apply Hfin in Hp. congruence.
  - (* get *)
    rewrite Hitems in *. constructor; simpl; try assumption.
    rewrite held_next_wait, <- app_assoc. exact Hk.
  - (* timeout *)
    constructor; simpl; try assumption. rewrite held_on_timeout. exact Hk.
  - (* BEGIN *)
    constructor; simpl; try assumption.
    intros t Et. injection Et as <-. exact Hview.
  - constructor; simpl; try assumption.
    intros t Et. injection Et as <-. exact Hview.
  - (* the last UPDATE *)
    destruct Htx as (_ & issued & -> & Htx).
    constructor; simpl; try assumption.
    intros t Et. injection Et as <-. apply sql_update_ok; [|exact Hview].
    apply Hun. apply in_or_app. left. apply in_or_app. right. left. reflexivity.
  - destruct Htx as (_ & issued & -> & Htx).
    constructor; simpl; try assumption.
    intros t Et. injection Et as <-. apply sql_update_ok; [|exact Hview].
    apply Hun. apply in_or_app. left. apply in_or_app. right. left. reflexivity.
  - (* COMMIT *)
    rows_committed Htx Hk Hund.
  - (* main ends: the accumulator is cancelled *)
    rows_cancelled Ht Hk.
  - rows_cancelled Ht Hk.
  - rows_cancelled Ht Hk.
  - (* the queued COMMIT *)
    rows_committed Htx Hk Hund.
Qed.

(** * Row ids *)

Lemma ids_ok_view (n : nat) (s : State) :
  ids_ok n s -> map id (view s) = task_ids n.
Proof. intros [Hc Ht]. unfold view. destruct (txn s); auto. Qed.

Ltac ids_cancelled Ht :=
  split; [assumption|];
  let t := fresh "t" in
  let Et := fresh "Et" in
  let Hc := fresh "Hc" in
  intros t Et;
  match type of Et with
  | cancel_txn ?a ?o = _ =>
      destruct (cancel_txn_keeps a o) as [Hc|Hc]; rewrite Hc in Et;
      [discriminate Et | exact (Ht t Et)]
  end.

Lemma ids_ok_step (n : nat) (e : Event) (s s' : State) :
  ids_ok n s -> step e s = Some s' -> ids_ok n s'.
Proof.
  intros Hi H. pose proof (ids_ok_view n s Hi) as Hv. destruct Hi as [Hc Ht].
  unfold ids_ok.
  step_inv H;
    try (worker_frame H; rewrite Fcommitted, Ftxn);
    try (split; [assumption | first [assumption | discriminate]]).
  - split; [assumption|]. intros t Et. injection Et as <-. exact Hv.
  - split; [assumption|]. intros t Et. injection Et as <-. exact Hv.
  - split; [assumption|]. intros t Et. injection Et as <-.
    rewrite sql_update_ids. exact Hv.
  - split; [assumption|]. intros t Et. injection Et as <-.
    rewrite sql_update_ids. exact Hv.
  - ids_cancelled Ht.
  - ids_cancelled Ht.
  - ids_cancelled Ht.
Qed.

Lemma ids_ok_init (n : nat) : ids_ok n (init n).
Proof. split; simpl; [apply populate_fresh_ids | discriminate]. Qed.

(** * The invariant of the pipeline *)

Lemma inv_init (n : nat) : inv n (init n).
Proof.
  constructor.
  - apply wf_init.
  - apply batch_ok_init.
  - apply txn_ok_init.
  - intros H. discriminate H.
  - apply ids_ok_init.
  - apply pub_ok_init.
  - apply rows_ok_init.
Qed.

Lemma inv_step (n : nat) (e : Event) (s s' : State) :
  inv n s -> step e s = Some s' -> inv n s'.
Proof.
  intros [H1 H2 H3 H4 H5 H6 H7] H. constructor.
  - eapply wf_step; eassumption.
  - eapply batch_ok_step; eassumption.
  - eapply txn_ok_step; eassumption.
  - eapply halted_ok_step; eassumption.
  - eapply ids_ok_step; eassumption.
  - eapply pub_ok_step; eassumption.
  - eapply rows_ok_step; eassumption.
Qed.

Lemma inv_reachable (n : nat) (s : State) : reachable n s -> inv n s.
Proof.
  revert s. apply reachable_ind'.
  - apply inv_init.
  - intros s e s' _ IH Hs. exact (inv_step n e s s' IH Hs).
Qed.

Lemma inv_exec (n : nat) (evs : list Event) (s s' : State) :
  inv n s -> exec evs s = Some s' -> inv n s'.
Proof.
  intros Hi H. revert Hi H. apply (exec_invariant (inv n)).
  intros s0 e s1. apply inv_step.
Qed.

(** * Flush atomicity *)

(** C3.  Flush atomicity: in every reachable state, a step either leaves the
    committed table untouched or is a COMMIT that goes through, which
    installs the whole non-empty batch at once: the COMMIT the accumulator
    awaits, or the COMMIT it had queued when it was cancelled, which the
    cancellation does not take back; no other step, the end of [main] and
    the cancellation included, writes to the committed table.  A flush whose
    BEGIN, any of its UPDATEs or its COMMIT raises leaves the committed
    table as it was before the flush, and a flush without a fault applies
    every record of the batch. *)
Theorem flush_atomicity (n : nat) (s : State) :
  reachable n s ->
  (forall e s', step e s = Some s' ->
     (committed s' = committed s /\ flushes s' = flushes s) \/
     (exists updates,
        updates <> [] /\
        (acc s = Committing updates \/ acc s = CommitQueued updates) /\
        e = EvDb true /\
        committed s' = apply_batch updates (committed s) /\
        flushes s' = flushes s ++ [updates])) /\
  (forall updates k,
     acc s = Begin updates -> k <= length updates + 1 ->
     exists s',
       exec (repeat (EvDb true) k ++ [EvDb false]) s = Some s' /\
       acc s' = Raised /\ txn s' = None /\ committed s' = committed s /\
       flushes s' = flushes s) /\
  (forall updates,
     acc s = Begin updates ->
     exists s',
       exec (repeat (EvDb true) (length updates + 3)) s = Some s' /\
       committed s' = apply_batch updates (committed s) /\
       flushes s' = flushes s ++ [updates]).
Proof.
  intros Hr. pose proof (inv_reachable n s Hr) as Hi.
  pose proof (inv_txn n s Hi) as Htx. pose proof (inv_batch n s Hi) as Hb.
  split; [|split].
  - intros e s' H. destruct (step_all_or_none e s s' Htx H) as [L|R].
    + left. exact L.
    + right. destruct R as (updates & Ha & He & Hc & Hf).
      exists updates. split; [|split; [exact Ha|repeat split; assumption]].
      destruct Hb as [Hb _]. unfold batch_size_ok in Hb.
      intros ->. destruct Ha as [Ha|Ha]; rewrite Ha in Hb; simpl in Hb; lia.
  - intros updates k Ha Hk.
    pose proof (reachable_flush_running n s updates Hr Ha) as Hrun.
    unfold txn_ok in Htx. rewrite Ha in Htx.
    eexists. split; [apply (flush_fault s updates k); assumption|].
    simpl. repeat split.
  - intros updates Ha.
    pose proof (reachable_flush_running n s updates Hr Ha) as Hrun.
    unfold txn_ok in Htx. rewrite Ha in Htx.
    eexists. split; [apply (flush_ok s updates); assumption|].
    simpl. split; reflexivity.
Qed.

Lemma flush_atomicity_witness :
  reachable 1 st_begin /\
  exists s',
    exec [EvDb true; EvDb false] st_begin = Some s' /\
    acc s' = Raised /\ committed s' = committed st_begin.
Proof.
  assert (Hr : reachable 1 st_begin).
  { exists run_to_begin. vm_compute. reflexivity. }
  split; [exact Hr|].
  destruct (flush_atomicity 1 st_begin Hr) as (_ & Hfault & _).
  destruct (Hfault (held (acc st_begin)) 1 eq_refl (le_S _ _ (le_n _)))
    as (s' & He & Ha & _ & Hc & _).
  exists s'. repeat split; assumption.
Defined.

(** The COMMIT that was queued when the accumulator was cancelled still
    runs: with two tasks, the flush of the record of task 1 is at its COMMIT
    when the measurement of task 2 fails and [main] ends with the
    exception; the batch is then committed whole, with no log line, or not
    at all. *)
Lemma queued_commit_lands :
  reachable 2 st_commit_queued /\
  main st_commit_queued = MFailed /\
  acc st_commit_queued =
    CommitQueued [(1%Z, Qmake 25 2, memory_mb 52428800)] /\
  committed st_commit_queued = committed (init 2) /\
  committed (final [EvDb true] st_commit_queued) =
    [mkRow 1 completed (Qmake 25 2) (memory_mb 52428800);
     mkRow 2 pending 0%Q 0%Q] /\
  log (final [EvDb true] st_commit_queued) = [] /\
  committed (final [EvDb false] st_commit_queued) = committed (init 2).
Proof.
  split; [exists run_commit_queued; vm_compute; reflexivity|].
  by_evaluation.
Qed.

(** * An id that matches no row *)

(** C10.  A batch with a record whose task id matches no row: the flush runs
    to its end without an error and the accumulator goes back to waiting; the
    unmatched UPDATE changes zero rows, whatever the other UPDATEs of the
    batch did before it; the committed table is the one the other records
    alone would give; and the logged count is the length of the whole batch,
    the unmatched record included. *)
Theorem flush_unmatched_id_noop (s : State) (l1 l2 : list UpdateRecord)
  (u : UpdateRecord) :
  running s = true -> acc s = Begin (l1 ++ u :: l2) -> txn s = None ->
  ~ In (rec_id u) (map id (committed s)) ->
  exists s',
    exec (repeat (EvDb true) (length (l1 ++ u :: l2) + 3)) s = Some s' /\
    acc s' = Collect [] (now s + T_IDLE) /\
    rowcount u (apply_batch l1 (committed s)) = 0 /\
    sql_update u (apply_batch l1 (committed s)) = apply_batch l1 (committed s) /\
    committed s' = apply_batch (l1 ++ l2) (committed s) /\
    flushes s' = flushes s ++ [l1 ++ u :: l2] /\
    log s' = log s ++ [LogBatch (S (length l1 + length l2))].
Proof.
  intros Hr Ha Ht Hu. eexists.
  split; [apply (flush_ok s (l1 ++ u :: l2)); assumption|].
  simpl. repeat split.
  - apply rowcount_unmatched. rewrite apply_batch_ids. exact Hu.
  - apply sql_update_unmatched. rewrite apply_batch_ids. exact Hu.
  - apply apply_batch_skip. exact Hu.
  - rewrite length_app. simpl. rewrite Nat.add_succ_r. reflexivity.
Qed.

Lemma flush_unmatched_id_noop_witness :
  exists s',
    exec (repeat (EvDb true) 6) st_unmatched = Some s' /\
    acc s' = Collect [] T_IDLE /\
    committed s' =
      apply_batch [(1%Z, Qmake 25 2, memory_mb 52428800);
                   (2%Z, Qmake 25 2, memory_mb 52428800)]
        (committed st_unmatched) /\
    log s' = [LogBatch 3].
Proof.
  destruct (flush_unmatched_id_noop st_unmatched
              [(1%Z, Qmake 25 2, memory_mb 52428800)]
              [(2%Z, Qmake 25 2, memory_mb 52428800)]
              (7%Z, Qmake 25 2, memory_mb 52428800)
              eq_refl eq_refl eq_refl)
    as (s' & He & Ha & _ & _ & Hc & _ & Hl).
  - vm_compute. intros [H|[H|[]]]; discriminate H.
  - exists s'. repeat split; assumption.
Defined.

(** * A storage fault during a flush *)

Lemma step_worker_items (tid : Z) (m : Measurement) (s s' : State) :
  step_worker tid m s = Some s' ->
  exists more, items (chan s') = items (chan s) ++ more.
Proof.
  unfold step_worker. destruct (get_worker tid (workers s)) as [[|u| |]|];
    try discriminate.
  - intros H. injection H as <-. simpl. unfold process_task.
    destruct (sample tid m) as [u|]; simpl.
    + destruct (put (chan s) u) as [q|] eqn:E; simpl.
      * apply put_inv in E. destruct E as [_ ->]. exists [u]. reflexivity.
      * exists []. symmetry. apply app_nil_r.
    + exists []. symmetry. apply app_nil_r.
  - destruct (put (chan s) u) as [q|] eqn:E; [|discriminate].
    intros H. injection H as <-. simpl.
    apply put_inv in E. destruct E as [_ ->]. exists [u]. reflexivity.
Qed.

(** Once the exception has left [async_update_batch], nothing takes records
    off the queue or writes to the table any more; the only log line still
    to come is the one of [main]. *)
Lemma raised_step (e : Event) (s s' : State) :
  acc s = Raised -> step e s = Some s' ->
  acc s' = Raised /\ committed s' = committed s /\ flushes s' = flushes s /\
  (log s' = log s \/ (log s' = log s ++ [LogAllDone] /\ running s' = false)) /\
  exists more, items (chan s') = items (chan s) ++ more.
Proof.
  intros Ha H.
  step_inv H; try congruence;
    try (repeat split; try assumption; try (rewrite Ha; reflexivity);
         try (left; reflexivity); try (right; split; reflexivity);
         exists []; symmetry; apply app_nil_r).
  pose proof (step_worker_items _ _ _ _ H) as Hi.
  worker_frame H. rewrite Facc, Fcommitted, Fflushes, Flog.
  repeat split; try assumption. left. reflexivity.
Qed.

Lemma raised_exec (evs : list Event) (s s' : State) :
  acc s = Raised -> exec evs s = Some s' ->
  acc s' = Raised /\ committed s' = committed s /\ flushes s' = flushes s /\
  (log s' = log s \/ log s' = log s ++ [LogAllDone]) /\
  exists more, items (chan s') = items (chan s) ++ more.
Proof.
  revert s. induction evs as [|e evs IH]; intros s Ha H; simpl in H.
  - injection H as <-. repeat split; try assumption.
    + left. reflexivity.
    + exists []. symmetry. apply app_nil_r.
  - destruct (step e s) as [s1|] eqn:E; [|discriminate].
    destruct (raised_step e s s1 Ha E) as (Ha1 & Hc1 & Hf1 & Hl1 & m1 & Hi1).
    destruct Hl1 as [Hl1|[Hl1 Hrun]].
    + destruct (IH s1 Ha1 H) as (Ha2 & Hc2 & Hf2 & Hl2 & m2 & Hi2).
      repeat split; try congruence.
      exists (m1 ++ m2). rewrite Hi2, Hi1, app_assoc. reflexivity.
    + destruct evs as [|e' evs]; simpl in H.
      * injection H as <-. repeat split; try congruence.
        -- right. exact Hl1.
        -- exists m1. exact Hi1.
      * destruct (step e' s1) as [s2|] eqn:E2; [|discriminate H].
        destruct (halted_step e' s1 s2 Hrun E2) as (ok & u & _ & Hd & _).
        congruence.
Qed.

(** C2, the claim as stated, fails: after the BEGIN of a flush raises the
    accumulator is not accumulating: the exception has ended it. *)
Lemma flush_fault_resilience_fails : ~ flush_fault_resilience.
Proof.
  intros H.
  destruct (H 1 st_begin (final [EvDb false] st_begin)) as (d & Hd).
  - exists run_to_begin. vm_compute. reflexivity.
  - reflexivity.
  - vm_compute. reflexivity.
  - vm_compute in Hd. discriminate Hd.
Qed.

(** C2, amended.  A storage fault during a flush ends the accumulator: the
    exception leaves [async_update_batch], nothing of the batch is committed,
    the accumulator logs nothing, and from then on it takes no record off the
    queue and flushes no batch: whatever happens next, the committed table
    and the list of flushes stay as they were and the queue only grows. *)
Theorem flush_fault_ends_accumulator (s s' : State) :
  flushing (acc s) = true -> step (EvDb false) s = Some s' ->
  acc s' = Raised /\ txn s' = None /\ committed s' = committed s /\
  flushes s' = flushes s /\ log s' = log s /\
  forall evs s'',
    exec evs s' = Some s'' ->
    acc s'' = Raised /\ committed s'' = committed s /\
    flushes s'' = flushes s /\
    (log s'' = log s \/ log s'' = log s ++ [LogAllDone]) /\
    exists more, items (chan s'') = items (chan s) ++ more.
Proof.
  intros Hfl H.
  destruct (step_fault s s' Hfl H) as (Ha & Ht & Hc & Hf & Hl & Hq).
  split; [exact Ha|]. split; [exact Ht|]. split; [exact Hc|].
  split; [exact Hf|]. split; [exact Hl|].
  intros evs s'' He.
  destruct (raised_exec evs s' s'' Ha He) as (Ha2 & Hc2 & Hf2 & Hl2 & m & Hi).
  split; [exact Ha2|]. split; [congruence|]. split; [congruence|]. split.
  - rewrite <- Hl. exact Hl2.
  - exists m. rewrite <- Hq. exact Hi.
Qed.

Lemma flush_fault_ends_accumulator_witness :
  acc (final [EvDb false] st_begin) = Raised /\
  committed (final [EvDb false] st_begin) = committed st_begin /\
  log (final [EvDb false] st_begin) = log st_begin.
Proof.
  destruct (flush_fault_ends_accumulator st_begin (final [EvDb false] st_begin)
              eq_refl eq_refl)
    as (Ha & _ & Hc & _ & Hl & _).
  repeat split; assumption.
Defined.

(** * A failing measurement *)

(** C5, the claim as stated, fails: with psutil raising, worker 1 ends with
    the exception and the queue stays empty. *)
Lemma absorbs_measurement_fault_fails :
  ~ absorbs_measurement_fault 1 update_queue.
Proof.
  intros (q' & H & _). vm_compute in H. discriminate H.
Qed.

Lemma step_worker_workers (tid : Z) (m : Measurement) (s s' : State) :
  step_worker tid m s = Some s' ->
  (exists w, workers s' = set_worker tid w (workers s)) /\
  (get_worker tid (workers s) = Some Sleeping \/
   exists u, get_worker tid (workers s) = Some (Putting u)).
Proof.
  unfold step_worker. destruct (get_worker tid (workers s)) as [[|u| |]|];
    try discriminate.
  - intros H. injection H as <-. simpl. split; [eexists; reflexivity|].
    left. reflexivity.
  - destruct (put (chan s) u); [|discriminate].
    intros H. injection H as <-. simpl. split; [eexists; reflexivity|].
    right. exists u. reflexivity.
Qed.

(** A worker that has failed stays failed. *)
Lemma failed_step (tid : Z) (e : Event) (s s' : State) :
  get_worker tid (workers s) = Some Failed -> step e s = Some s' ->
  get_worker tid (workers s') = Some Failed.
Proof.
  intros Hf H. step_inv H; try assumption.
  destruct (step_worker_workers _ _ _ _ H) as [[w ->] Hw].
  rewrite get_set_worker_other; [exact Hf|].
  intros ->. destruct Hw as [Hw|[u Hw]]; congruence.
Qed.

Lemma failed_exec (tid : Z) (evs : list Event) (s s' : State) :
  get_worker tid (workers s) = Some Failed -> exec evs s = Some s' ->
  get_worker tid (workers s') = Some Failed.
Proof.
  intros Hf H. revert Hf H.
  apply (exec_invariant (fun s => get_worker tid (workers s) = Some Failed)).
  intros s0 e s1. apply failed_step.
Qed.

Lemma get_worker_some_failed (tid : Z) (ws : list (Z * Worker)) :
  get_worker tid ws = Some Failed -> some_failed ws = true.
Proof.
  intros H. apply get_worker_In in H. unfold some_failed.
  apply existsb_exists. exists (tid, Failed). split; [exact H | reflexivity].
Qed.

Lemma get_worker_not_all_finished (tid : Z) (w : Worker)
  (ws : list (Z * Worker)) :
  get_worker tid ws = Some w -> w <> Finished -> all_finished ws = false.
Proof.
  intros H Hw. apply get_worker_In in H.
  destruct (all_finished ws) eqn:E; [|reflexivity].
  unfold all_finished in E. rewrite forallb_forall in E.
  specialize (E _ H). simpl in E. destruct w; congruence.
Qed.

Lemma join_ok_step (e : Event) (s s' : State) :
  join_ok s -> step e s = Some s' -> join_ok s'.
Proof.
  unfold join_ok. intros Hj H.
  step_inv H; try assumption; try discriminate.
  - destruct (step_worker_workers _ _ _ _ H) as [_ Hw].
    worker_frame H. rewrite Fmain. intros Hm. specialize (Hj Hm).
    exfalso. destruct Hw as [Hw|[u Hw]];
      apply get_worker_not_all_finished in Hw; congruence.
  - intros _. assumption.
Qed.

Lemma join_ok_reachable (n : nat) (s : State) : reachable n s -> join_ok s.
Proof.
  revert s. apply reachable_ind'.
  - intros H. discriminate H.
  - intros s e s' _ IH Hs. exact (join_ok_step e s s' IH Hs).
Qed.

(** C5, amended.  A failing measurement is not absorbed: [process_task] ends
    with the exception and puts nothing, [gather] re-raises the exception in
    [main], and the task is never persisted: in every later state no record
    of the task has been published and its row is as seeded.  A measurement
    that succeeds puts the record with the measured values. *)
Theorem measurement_fault_propagates (n : nat) (s : State) (tid : Z) :
  reachable n s ->
  (forall s',
     step (EvWorker tid None) s = Some s' ->
     process_task tid None (chan s) = (Failed, chan s) /\
     get_worker tid (workers s') = Some Failed /\
     chan s' = chan s /\ published s' = published s /\
     (exists s2, step EvMain s' = Some s2 /\ main s2 = MFailed) /\
     forall evs s'',
       exec evs s' = Some s'' ->
       ~ In tid (map rec_id (published s'')) /\
       forall r, In r (committed s'') -> id r = tid -> seeded r) /\
  (forall cpu rss s',
     step (EvWorker tid (Some (cpu, rss))) s = Some s' ->
     get_worker tid (workers s') = Some Finished /\
     items (chan s') = items (chan s) ++ [(tid, cpu, memory_mb rss)]).
Proof.
  intros Hr. pose proof (inv_reachable n s Hr) as Hi.
  pose proof (inv_wf n s Hi) as Hwf. split.
  - intros s' H. pose proof (inv_step n _ s s' Hi H) as Hi'.
    pose proof (join_ok_reachable n s Hr) as Hj.
    split; [reflexivity|].
    unfold step in H. destruct (running s) eqn:Hrun; [|discriminate].
    pose proof H as H0.
    apply (step_worker_inv n _ _ _ _ Hwf) in H.
    destruct H as [Hw [[_ ->]|(u & Hu & _)]]; [|discriminate Hu]. simpl.
    assert (Hf : get_worker tid (set_worker tid Failed (workers s)) = Some Failed)
      by (eapply get_set_worker_same; exact Hw).
    split; [exact Hf|]. split; [reflexivity|]. split; [reflexivity|]. split.
    + assert (Hm : main s = MGather).
      { unfold running in Hrun. unfold join_ok in Hj.
        destruct (main s); try discriminate; [reflexivity|].
        specialize (Hj eq_refl).
        apply get_worker_not_all_finished in Hw; congruence. }
      unfold step, step_main, running. simpl. rewrite Hm.
      rewrite (get_worker_some_failed tid _ Hf). eexists. split; reflexivity.
    + intros evs s'' He.
      pose proof (inv_exec n evs _ s'' Hi' He) as Hi''.
      assert (Hf'' : get_worker tid (workers s'') = Some Failed)
        by (eapply failed_exec; [|exact He]; exact Hf).
      assert (Hnp : ~ In tid (map rec_id (published s''))).
      { intros Hin. apply (pub_finished _ (inv_pub n s'' Hi'')) in Hin.
        congruence. }
      split; [exact Hnp|]. intros r Hin Hid.
      pose proof (rows_committed _ (inv_rows n s'' Hi'')) as Hrows.
      rewrite Forall_forall in Hrows. destruct (Hrows r Hin) as [Hs|[_ Hp]].
      * exact Hs.
      * exfalso. apply Hnp. apply (in_map rec_id) in Hp.
        unfold rec_id in Hp at 1. simpl in Hp. rewrite Hid in Hp. exact Hp.
  - intros cpu rss s' H.
    unfold step in H. destruct (running s) eqn:Hrun; [|discriminate].
    apply (step_worker_inv n _ _ _ _ Hwf) in H.
    destruct H as [Hw [[Hu _]|(u & Hu & ->)]]; [discriminate Hu|]. simpl.
    injection Hu as <-. split; [|reflexivity].
    eapply get_set_worker_same; exact Hw.
Qed.

Lemma measurement_fault_propagates_witness :
  chan (final [EvDb true; EvWorker 1 None] (init 1)) = update_queue /\
  committed (final [EvDb true; EvWorker 1 None] (init 1)) =
    [mkRow 1 pending 0%Q 0%Q].
Proof.
  assert (Hr : reachable 1 (final [EvDb true] (init 1))).
  { exists [EvDb true]. vm_compute. reflexivity. }
  destruct (measurement_fault_propagates 1 _ 1%Z Hr) as [Hfail _].
  destruct (Hfail (final [EvDb true; EvWorker 1 None] (init 1)) eq_refl)
    as (_ & _ & Hc & _).
  split; [exact Hc | reflexivity].
Defined.

(** * The size of the channel *)

Lemma get_worker_sleeping (i : Z) (l : list Z) :
  In i l -> get_worker i (map (fun i => (i, Sleeping)) l) = Some Sleeping.
Proof.
  unfold get_worker. induction l as [|j l IH]; simpl; intros H.
  - contradiction.
  - destruct (Z.eqb_spec j i) as [E|E]; [reflexivity|].
    destruct H as [H|H]; [contradiction|]. apply IH. exact H.
Qed.

Lemma exec_flood (l : list Z) (s : State) :
  running s = true -> maxsize (chan s) = 0 -> NoDup l ->
  (forall i, In i l -> get_worker i (workers s) = Some Sleeping) ->
  exists s',
    exec (map (fun i => EvWorker i reading) l) s = Some s' /\
    length (items (chan s')) = length (items (chan s)) + length l.
Proof.
  revert s. induction l as [|i l IH]; intros s Hrun Hm Hnd Hs.
  - exists s. split; [reflexivity | simpl; lia].
  - inversion Hnd as [|x l' Hi Hl]; subst.
    cbn [map exec]. unfold step. rewrite Hrun. unfold step_worker.
    rewrite (Hs i (or_introl eq_refl)).
    rewrite (process_task_unbounded _ _ _ Hm). cbn [sample reading fst snd].
    match goal with
    | |- exists s', exec _ ?s1 = _ /\ _ =>
        destruct (IH s1) as (s' & He & Hlen)
    end; simpl; try assumption; try reflexivity.
    + intros j Hj. rewrite get_set_worker_other.
      * apply Hs. right. exact Hj.
      * intros ->. contradiction.
    + exists s'. split; [exact He|]. rewrite Hlen. simpl.
      rewrite length_app. simpl. lia.
Qed.

Lemma flood_reachable (n : nat) :
  exists s, reachable n s /\ length (items (chan s)) = n.
Proof.
  destruct (exec_flood (task_ids n) (init n)) as (s & He & Hlen);
    try reflexivity.
  - apply task_ids_NoDup.
  - intros i Hi. simpl. apply get_worker_sleeping. exact Hi.
  - exists s. split.
    + exists (run_flood n). exact He.
    + rewrite Hlen, task_ids_length. reflexivity.
Qed.

(** C6, the claim as stated, fails: with one more worker than any proposed
    bound, all of them put before the accumulator takes anything. *)
Lemma bounded_channel_fails : ~ bounded_channel.
Proof.
  intros [bound H]. destruct (flood_reachable (S bound)) as (s & Hr & Hlen).
  specialize (H (S bound) s Hr). lia.
Qed.

Lemma published_le (n : nat) (s : State) :
  inv n s -> length (published s) <= n.
Proof.
  intros Hi. destruct (inv_pub n s Hi) as [Hfin Hnd _ _].
  rewrite <- (task_ids_length n), <- (length_map rec_id).
  apply NoDup_incl_length; [exact Hnd|].
  intros i Hin. apply Hfin in Hin. apply get_worker_id in Hin.
  rewrite (wf_workers n s (inv_wf n s Hi)) in Hin. exact Hin.
Qed.

Lemma unflushed_le (n : nat) (s : State) :
  inv n s ->
  length (held (acc s)) + length (items (chan s)) <= length (published s).
Proof.
  intros Hi. destruct (inv_pub n s Hi) as [_ _ Hun Hund].
  rewrite <- length_app, <- (length_map rec_id), <- (length_map rec_id (published s)).
  apply NoDup_incl_length; [exact Hund|].
  intros i Hin. apply in_map_iff in Hin. destruct Hin as (u & <- & Hu).
  apply in_map. apply Hun. exact Hu.
Qed.

(** C6, amended.  The channel has no bound of its own: it is built with
    [maxsize = 0], it is never full and [put] never waits; what is buffered
    is limited only by the number of workers, each of which puts once, and
    that limit is reached. *)
Theorem channel_unbounded (n : nat) :
  (forall s,
     reachable n s ->
     maxsize (chan s) = 0 /\ full (chan s) = false /\
     (forall u, put (chan s) u <> None) /\
     length (items (chan s)) <= n) /\
  (exists s, reachable n s /\ length (items (chan s)) = n).
Proof.
  split; [|apply flood_reachable].
  intros s Hr. pose proof (inv_reachable n s Hr) as Hi.
  pose proof (wf_maxsize n s (inv_wf n s Hi)) as Hm.
  split; [exact Hm|]. split; [|split].
  - unfold full. rewrite Hm. reflexivity.
  - intros u. rewrite put_unbounded by exact Hm. discriminate.
  - pose proof (published_le n s Hi). pose proof (unflushed_le n s Hi). lia.
Qed.

(** * The life of a task row *)

Lemma completed_row_stays (e : Event) (s s' : State) (r : Row) :
  txn_ok s -> rows_ok s -> step e s = Some s' ->
  In r (committed s) -> status r = completed -> In r (committed s').
Proof.
  intros Htx Hrows H Hin Hst.
  destruct (step_all_or_none e s s' Htx H) as [[Hc _]|(updates & Ha & _ & Hc & _)].
  - rewrite Hc. exact Hin.
  - rewrite Hc, apply_batch_rowwise.
    rewrite <- (row_after_untouched updates r).
    + apply in_map. exact Hin.
    + intros Hid. apply in_map_iff in Hid. destruct Hid as (u & Hu & Huin).
      assert (Hp : status r = pending).
      { apply (rows_unflushed s Hrows u r); [|exact Hin | symmetry; exact Hu].
        destruct Ha as [Ha|Ha]; rewrite Ha; simpl; apply in_or_app; left;
          exact Huin. }
      congruence.
Qed.

(** C4.  Task lifecycle: in every reachable state, every row of the table as
    any reader sees it, and every row inside the accumulator's open
    transaction, is either as seeded (pending, both usage fields 0) or
    completed with both usage fields equal to those of the record published
    for its id, of which there is only one; the ids are the seeded ones; and
    no step changes a row that is completed, so a row goes from pending to
    completed at most once. *)
Theorem task_lifecycle (n : nat) (s : State) :
  reachable n s ->
  Forall (row_ok (published s)) (committed s) /\
  Forall (row_ok (published s)) (view s) /\
  NoDup (map rec_id (published s)) /\
  map id (committed s) = task_ids n /\
  forall e s' r,
    step e s = Some s' -> In r (committed s) -> status r = completed ->
    In r (committed s').
Proof.
  intros Hr. pose proof (inv_reachable n s Hr) as Hi.
  split; [exact (rows_committed s (inv_rows n s Hi))|].
  split; [exact (view_ok s (inv_rows n s Hi))|].
  split; [exact (pub_nodup s (inv_pub n s Hi))|].
  split; [exact (proj1 (inv_ids n s Hi))|].
  intros e s' r H Hin Hst.
  exact (completed_row_stays e s s' r (inv_txn n s Hi) (inv_rows n s Hi)
           H Hin Hst).
Qed.

Lemma task_lifecycle_witness :
  Forall (row_ok (published st_flushed)) (committed st_flushed) /\
  committed st_flushed =
    [mkRow 1 completed (Qmake 25 2) (memory_mb 52428800)].
Proof.
  assert (Hr : reachable 1 st_flushed).
  { exists run_one_flushed. vm_compute. reflexivity. }
  destruct (task_lifecycle 1 st_flushed Hr) as (Hrows & _).
  split; [exact Hrows | reflexivity].
Defined.

(** * The two cutoffs of a batch *)

(** Time passes while the accumulator waits on an empty queue. *)
Lemma exec_ticks (k : nat) (s : State) (updates : list UpdateRecord)
  (deadline : nat) :
  running s = true -> acc s = Collect updates deadline ->
  items (chan s) = [] -> now s + k <= deadline ->
  exec (repeat EvTick k) s =
  Some (mkState (now s + k) (chan s) (workers s) (Collect updates deadline)
          (main s) (committed s) (txn s) (log s) (published s) (flushes s)).
Proof.
  revert s. induction k as [|k IH]; intros s Hr Ha Hi Hd.
  - simpl. rewrite Nat.add_0_r. destruct s; simpl in *. subst. reflexivity.
  - cbn [repeat exec].
    rewrite (rule_tick_wait s updates deadline Hr Ha Hi) by lia.
    rewrite IH; simpl; try assumption; try lia.
    rewrite Nat.add_succ_r. reflexivity.
Qed.

(** A run that is still going was going all along. *)
Lemma running_exec_back (evs : list Event) (s s' : State) :
  exec evs s = Some s' -> running s' = true -> running s = true.
Proof.
  revert s. induction evs as [|e evs IH]; intros s H Hr; simpl in H.
  - injection H as <-. exact Hr.
  - destruct (step e s) as [s1|] eqn:E; [|discriminate].
    apply (running_back e s s1 E). apply (IH s1 H Hr).
Qed.

(** One step of a wait during which nothing arrives: the wait goes on within
    its deadline, or the timer fires, at the deadline, into the flush of the
    batch, or [main] ends. *)
Lemma waiting_step (updates : list UpdateRecord) (deadline : nat) (e : Event)
  (s s' : State) :
  updates <> [] -> no_arrival e = true ->
  waiting updates deadline s -> step e s = Some s' ->
  waiting updates deadline s' \/
  (e = EvTimeout /\ now s = deadline /\ acc s' = Begin updates) \/
  running s' = false.
Proof.
  unfold waiting. intros Hne Hq (Ha & Hi & Hd & Hr) H.
  step_inv H; try discriminate Hq; try congruence;
    try (right; right; reflexivity).
  - left. rewrite E in Ha. injection Ha as <- <-. apply Nat.ltb_lt in E1.
    repeat split; assumption.
  - right. left. rewrite E in Ha. injection Ha as <- <-.
    apply Nat.leb_le in E1. split; [reflexivity|]. split; [lia|].
    destruct updates0; [congruence | reflexivity].
  - left. repeat split; assumption.
Qed.

(** A wait during which nothing arrives, in a run that [main] does not end:
    the wait is still on, or the timer has fired at the deadline into the
    flush of the batch. *)
Lemma waiting_exec (updates : list UpdateRecord) (deadline : nat)
  (evs : list Event) (s s' : State) :
  updates <> [] -> forallb no_arrival evs = true ->
  waiting updates deadline s -> exec evs s = Some s' -> running s' = true ->
  waiting updates deadline s' \/
  exists evs1 evs2 sa sb,
    evs = evs1 ++ EvTimeout :: evs2 /\ exec evs1 s = Some sa /\
    step EvTimeout sa = Some sb /\ now sa = deadline /\ acc sb = Begin updates.
Proof.
  intros Hne. revert s. induction evs as [|e evs IH]; intros s Hq Hw H Hr;
    simpl in H.
  - injection H as <-. left. exact Hw.
  - simpl in Hq. apply andb_prop in Hq. destruct Hq as [Hq1 Hq2].
    destruct (step e s) as [s1|] eqn:E; [|discriminate].
    destruct (waiting_step updates deadline e s s1 Hne Hq1 Hw E)
      as [Hw1|[(-> & Hn & Ha)|Hh]].
    + destruct (IH s1 Hq2 Hw1 H Hr)
        as [L|(evs1 & evs2 & sa & sb & -> & He1 & Hs & Hn & Ha)].
      * left. exact L.
      * right. exists (e :: evs1), evs2, sa, sb.
        repeat split; try assumption. simpl. rewrite E. exact He1.
    + right. exists [], evs, s, s1. repeat split; assumption.
    + pose proof (running_exec_back evs s1 s' H Hr). congruence.
Qed.

(** From a wait on an empty queue the rest of the interval elapses and the
    timer fires into the flush of the batch; at the deadline no time passes
    before that. *)
Lemma waiting_fires (updates : list UpdateRecord) (deadline : nat) (s : State) :
  updates <> [] -> waiting updates deadline s ->
  (now s = deadline -> step EvTick s = None) /\
  exists s3,
    exec (repeat EvTick (deadline - now s) ++ [EvTimeout]) s = Some s3 /\
    acc s3 = Begin updates /\ now s3 = deadline.
Proof.
  intros Hne (Ha & Hi & Hd & Hr). split.
  - intros E. apply (rule_tick_deadline s updates deadline Ha Hi). lia.
  - rewrite exec_app.
    rewrite (exec_ticks (deadline - now s) s updates deadline Hr Ha Hi) by lia.
    cbn [exec]. rewrite (rule_timeout _ updates deadline); simpl;
      try assumption; try reflexivity; try lia.
    eexists. split; [reflexivity|]. simpl.
    split; [destruct updates; [congruence | reflexivity] | lia].
Qed.

(** C7, the claim as stated, fails in its second half.  With 1000 tasks, the
    last record arrives while the accumulator is at the first UPDATE of the
    flush of the first hundred, started one time unit earlier, with 899
    others queued; [T_IDLE] + 1 time units after that arrival the UPDATE
    has not returned: the accumulator has started no flush since the
    arrival, the last record is still in the queue, and no flush with it
    has been started.  No database call raises and [main] has not ended. *)
Lemma idle_cutoff_from_arrival_fails : ~ idle_cutoff_from_arrival.
Proof.
  intros H.
  assert (Hs : flush_started (1000%Z, Qmake 25 2, memory_mb 52428800)
                 st_slow_begin).
  { apply (H N_TASKS st_last_to_put 1000%Z reading _
             (final [EvWorker 1000 reading] st_last_to_put) run_slow_begin).
    - exists run_to_last_put. vm_compute. reflexivity.
    - vm_compute. reflexivity.
    - reflexivity.
    - vm_compute. reflexivity.
    - vm_compute. reflexivity.
    - vm_compute. reflexivity.
    - reflexivity.
    - vm_compute. apply le_n. }
  destruct Hs as [Hs|[_ Hs]].
  - vm_compute in Hs. exact Hs.
  - assert (Hid : existsb (Z.eqb 1000)
                    (map rec_id (held (acc st_slow_begin))) = true).
    { apply existsb_exists. exists 1000%Z. split; [|reflexivity].
      apply (in_map rec_id) in Hs. exact Hs. }
    vm_compute in Hid. discriminate Hid.
Qed.

(** C7, amended.  In every reachable state the batch in the accumulator's
    hands and every batch that was committed have at most [MAX_BATCH] = 100
    records, and a committed batch names at most 100 rows.  A record that
    the accumulator takes off the queue either fills the batch, and the
    flush starts at once, or leaves a non-empty batch waiting with a
    deadline [T_IDLE] = 5 time units after that receipt.  If that record was
    the last one (the queue is empty and nothing arrives), then in every run
    that [main] has not ended either the accumulator still waits with that
    batch, the deadline has not passed, at the deadline no time passes, and
    the rest of the interval followed by the timer leads into the flush of
    exactly that batch; or the timer has fired, at the deadline and not
    before, into the flush of exactly that batch.  The interval is counted
    from the receipt by the accumulator, not from the arrival on the
    channel. *)
Theorem batch_cutoff_bounds (n : nat) (s : State) :
  reachable n s ->
  (length (held (acc s)) <= MAX_BATCH /\
   Forall (fun b => length b <= MAX_BATCH /\
                    touched b (committed s) <= MAX_BATCH) (flushes s)) /\
  (forall s1,
     step EvGet s = Some s1 ->
     (exists updates, acc s1 = Begin updates /\ length updates = MAX_BATCH) \/
     (exists updates,
        acc s1 = Collect updates (now s + T_IDLE) /\
        1 <= length updates < MAX_BATCH)) /\
  (forall s1 updates deadline,
     step EvGet s = Some s1 ->
     acc s1 = Collect updates deadline -> items (chan s1) = [] ->
     deadline = now s + T_IDLE /\
     forall evs s2,
       forallb no_arrival evs = true -> exec evs s1 = Some s2 ->
       running s2 = true ->
       (acc s2 = Collect updates deadline /\ now s2 <= deadline /\
        (now s2 = deadline -> step EvTick s2 = None) /\
        exists s3,
          exec (repeat EvTick (deadline - now s2) ++ [EvTimeout]) s2 = Some s3 /\
          acc s3 = Begin updates /\ now s3 = deadline) \/
       (exists evs1 evs2 sa sb,
          evs = evs1 ++ EvTimeout :: evs2 /\ exec evs1 s1 = Some sa /\
          step EvTimeout sa = Some sb /\
          now sa = deadline /\ acc sb = Begin updates)).
Proof.
  intros Hr. pose proof (inv_reachable n s Hr) as Hi.
  pose proof (inv_batch n s Hi) as [Hb Hf].
  assert (Hget : forall s1,
             step EvGet s = Some s1 ->
             now s1 = now s /\ running s1 = true /\
             ((exists updates,
                 acc s1 = Begin updates /\ length updates = MAX_BATCH) \/
              (exists updates,
                 acc s1 = Collect updates (now s + T_IDLE) /\
                 1 <= length updates < MAX_BATCH))).
  { intros s1 H. step_inv H. use_acc. simpl in Hb.
    split; [reflexivity|]. split; [exact Hrun|].
    destruct (Nat.lt_ge_cases (length (updates ++ [u])) MAX_BATCH) as [L|L].
    - right. exists (updates ++ [u]). rewrite next_wait_room by exact L.
      split; [reflexivity|]. rewrite length_app in *. simpl in *. lia.
    - left. exists (updates ++ [u]). rewrite next_wait_full by exact L.
      split; [reflexivity|]. rewrite length_app in *. simpl in *. lia. }
  split; [|split].
  - split.
    + unfold batch_size_ok in Hb. pose proof MAX_BATCH_pos.
      destruct (acc s); simpl in *; lia.
    + eapply Forall_impl; [|exact Hf]. intros b [_ Hlen]. split; [exact Hlen|].
      etransitivity; [|exact Hlen]. apply touched_le.
      rewrite (proj1 (inv_ids n s Hi)). apply task_ids_NoDup.
  - intros s1 H. apply (Hget s1 H).
  - intros s1 updates deadline H Ha Hq.
    destruct (Hget s1 H) as (Hnow & Hrun & [(b & Hacc & _)|(b & Hacc & Hlen)]);
      [congruence|].
    rewrite Hacc in Ha. injection Ha as Hu Hd. subst updates deadline.
    split; [reflexivity|].
    assert (Hne : b <> []) by (intros ->; simpl in Hlen; lia).
    assert (Hw : waiting b (now s + T_IDLE) s1).
    { unfold waiting. repeat split; try assumption. rewrite Hnow. lia. }
    intros evs s2 Hev He Hrun2.
    destruct (waiting_exec b _ evs s1 s2 Hne Hev Hw He Hrun2) as [Hw2|R].
    + left. destruct (waiting_fires b _ s2 Hne Hw2) as (Htick & Hfire).
      destruct Hw2 as (A & _ & C & _).
      split; [exact A|]. split; [exact C|]. split; assumption.
    + right. exact R.
Qed.

Lemma batch_cutoff_bounds_witness :
  exists s3,
    exec ([EvGet] ++ repeat EvTick T_IDLE ++ [EvTimeout]) st_one_queued = Some s3 /\
    acc s3 = Begin [(1%Z, Qmake 25 2, memory_mb 52428800)] /\
    now s3 = now st_one_queued + T_IDLE.
Proof.
  assert (Hr : reachable 1 st_one_queued).
  { exists [EvDb true; EvWorker 1 reading]. vm_compute. reflexivity. }
  destruct (batch_cutoff_bounds 1 st_one_queued Hr) as (_ & _ & Hidle).
  destruct (Hidle (final [EvGet] st_one_queued)
              [(1%Z, Qmake 25 2, memory_mb 52428800)] T_IDLE
              eq_refl eq_refl eq_refl) as (_ & Hrun).
  destruct (Hrun [] (final [EvGet] st_one_queued) eq_refl eq_refl eq_refl)
    as [(_ & _ & _ & s3 & He & Ha & Hn)|(evs1 & evs2 & _ & _ & E & _)].
  - exists s3. split; [|split; assumption]. exact He.
  - destruct evs1; discriminate E.
Defined.

(** * The idle-timeout cutoff *)

(** A whole idle period with nothing collected: the timer fires and the wait
    starts again. *)
Lemma idle_round (s : State) :
  running s = true -> acc s = Collect [] (now s + T_IDLE) ->
  items (chan s) = [] ->
  exec (repeat EvTick T_IDLE ++ [EvTimeout]) s =
  Some (mkState (now s + T_IDLE) (chan s) (workers s)
          (Collect [] (now s + T_IDLE + T_IDLE))
          (main s) (committed s) (txn s) (log s) (published s) (flushes s)).
Proof.
  intros Hr Ha Hi. rewrite exec_app.
  rewrite (exec_ticks T_IDLE s [] (now s + T_IDLE) Hr Ha Hi) by lia.
  cbn [exec].
  rewrite (rule_timeout _ [] (now s + T_IDLE)); simpl;
    try assumption; try reflexivity; try lia.
Qed.

Lemma exec_idle_rounds (k : nat) (s : State) :
  running s = true -> acc s = Collect [] (now s + T_IDLE) ->
  items (chan s) = [] ->
  exec (idle_rounds k) s =
  Some (mkState (now s + k * T_IDLE) (chan s) (workers s)
          (Collect [] (now s + k * T_IDLE + T_IDLE))
          (main s) (committed s) (txn s) (log s) (published s) (flushes s)).
Proof.
  revert s. induction k as [|k IH]; intros s Hr Ha Hi.
  - simpl. rewrite Nat.add_0_r. destruct s; simpl in *. subst. reflexivity.
  - unfold idle_rounds in *. cbn [repeat concat]. rewrite exec_app.
    rewrite (idle_round s Hr Ha Hi). rewrite IH; simpl; try assumption;
      try reflexivity.
    replace (now s + T_IDLE + k * T_IDLE) with (now s + (T_IDLE + k * T_IDLE))
      by lia.
    reflexivity.
Qed.

Ltac phase_auto :=
  first
    [ solve [eapply PhCollect; simpl; eauto]
    | solve [eapply PhBegin; simpl; eauto]
    | solve [eapply PhUpdating; simpl; eauto]
    | solve [eapply PhCommitting; simpl; eauto]
    | solve [eapply PhClosing; simpl; eauto; congruence]
    | solve [eapply PhIdle; simpl; eauto]
    | solve [eapply PhQueued; simpl; eauto]
    | solve [eapply PhEnded; simpl; eauto] ].

Lemma stalled_phase_step (f0 : list (list UpdateRecord))
  (b : list UpdateRecord) (e : Event) (s s' : State) :
  b <> [] -> length b < MAX_BATCH -> no_arrival e = true ->
  stalled_phase f0 b s -> step e s = Some s' -> stalled_phase f0 b s'.
Proof.
  intros Hne Hlen Hq Hp H.
  destruct Hp as [pre d Ha Hb Hf|Ha Hi Hf|todo Ha Hi Hf|Ha Hi Hf|Ha Hi Hf
                 |d Ha Hi Hf|Ha Hi Hf|Ha Hf];
    step_inv H; try discriminate Hq;
    try (destruct Ha as [Ha|Ha]);
    try (rewrite E in Ha; first [discriminate Ha | injection Ha as Ha]);
    try congruence;
    repeat match goal with
      | H : ?x = _ |- _ => is_var x; subst x
      | H : _ :: _ = ?y |- _ => is_var y; subst y
      | H : [] = ?y |- _ => is_var y; subst y
      end;
    try congruence;
    try rewrite (next_wait_room _ []) by apply MAX_BATCH_pos;
    try phase_auto;
    try (rewrite Ha; simpl; phase_auto);
    try (rewrite <- Hf; phase_auto).
  - (* a record is taken *)
    rewrite Hitems in Hb. rewrite next_wait_room.
    + eapply PhCollect; simpl; eauto. rewrite <- app_assoc. exact Hb.
    + rewrite <- Hb in Hlen. rewrite !length_app in *. simpl in *. lia.
  - (* the wait times out with the whole batch collected *)
    rewrite E0, app_nil_r in Hb. subst pre.
    destruct b; [congruence|]. apply PhBegin; simpl; auto.
Qed.

Lemma stalled_phase_exec (f0 : list (list UpdateRecord))
  (b : list UpdateRecord) (evs : list Event) (s s' : State) :
  b <> [] -> length b < MAX_BATCH -> forallb no_arrival evs = true ->
  stalled_phase f0 b s -> exec evs s = Some s' -> stalled_phase f0 b s'.
Proof.
  intros Hne Hlen. revert s. induction evs as [|e evs IH]; intros s Hq Hp H;
    simpl in *.
  - injection H as <-. exact Hp.
  - apply andb_prop in Hq. destruct Hq as [Hq1 Hq2].
    destruct (step e s) as [s1|] eqn:E; [|discriminate].
    apply (IH s1 Hq2); [|exact H].
    exact (stalled_phase_step f0 b e s s1 Hne Hlen Hq1 Hp E).
Qed.

Lemma stalled_phase_flushes (f0 : list (list UpdateRecord))
  (b : list UpdateRecord) (s : State) :
  stalled_phase f0 b s -> flushes s = f0 \/ flushes s = f0 ++ [b].
Proof. intros []; auto. Qed.

(** The three waiting records are taken one after the other. *)
Lemma exec_three_gets (s : State) (r1 r2 r3 : UpdateRecord) (deadline : nat) :
  running s = true -> acc s = Collect [] deadline ->
  items (chan s) = [r1; r2; r3] ->
  exec (repeat EvGet 3) s =
  Some (mkState (now s)
          (mkQueue (maxsize (chan s)) []
             (pred (pred (pred (unfinished_tasks (chan s))))))
          (workers s) (Collect [r1; r2; r3] (now s + T_IDLE)) (main s)
          (committed s) (txn s) (log s) (published s) (flushes s)).
Proof.
  intros Hr Ha Hi. cbn [repeat exec].
  rewrite (rule_get s [] [r2; r3] r1 deadline Hr Ha Hi).
  rewrite (rule_get _ [r1] [r3] r2 (now s + T_IDLE));
    try reflexivity; try exact Hr.
  rewrite (rule_get _ [r1; r2] [] r3 (now s + T_IDLE));
    try reflexivity; try exact Hr.
Qed.

Lemma exec_run_stalled (k : nat) (s : State) (r1 r2 r3 : UpdateRecord)
  (deadline : nat) :
  running s = true -> acc s = Collect [] deadline ->
  items (chan s) = [r1; r2; r3] -> txn s = None ->
  exec (run_stalled k) s =
  Some (mkState (now s + T_IDLE + k * T_IDLE)
          (mkQueue (maxsize (chan s)) []
             (pred (pred (pred (unfinished_tasks (chan s))))))
          (workers s) (Collect [] (now s + T_IDLE + k * T_IDLE + T_IDLE))
          (main s) (apply_batch [r1; r2; r3] (committed s)) None
          (log s ++ [LogBatch 3]) (published s)
          (flushes s ++ [[r1; r2; r3]])).
Proof.
  intros Hr Ha Hi Ht. unfold run_stalled.
  rewrite exec_app, (exec_three_gets s r1 r2 r3 deadline Hr Ha Hi).
  rewrite exec_app.
  rewrite (exec_ticks T_IDLE _ [r1; r2; r3] (now s + T_IDLE));
    try reflexivity; try exact Hr.
  cbn [now chan workers acc main committed txn log published flushes].
  rewrite exec_app. cbn [exec].
  rewrite (rule_timeout _ [r1; r2; r3] (now s + T_IDLE));
    try reflexivity; try exact Hr.
  cbn [now chan workers acc main committed txn log published flushes
       on_timeout].
  rewrite exec_app.
  rewrite (flush_ok _ [r1; r2; r3]); try reflexivity; try assumption.
  cbn [now chan workers acc main committed txn log published flushes length].
  rewrite exec_idle_rounds; try reflexivity; try assumption.
Qed.

(** C9.  Idle-timeout cutoff: with exactly three records waiting and no
    further arrival, the stalled run (the three are taken, [T_IDLE] passes,
    the timer fires, the flush goes through, and any number of further idle
    periods pass) performs exactly one flush, of exactly those three records
    in order, and logs it once; no schedule without arrivals flushes
    anything but that one batch; and in general a timeout with a non-empty
    batch starts the flush of that batch, while a timeout with an empty
    batch only restarts the wait, with no flush and no change of the
    table. *)
Theorem idle_timeout_cutoff (s : State) (r1 r2 r3 : UpdateRecord)
  (deadline : nat) :
  running s = true -> acc s = Collect [] deadline ->
  items (chan s) = [r1; r2; r3] -> txn s = None ->
  (forall k,
     exists s',
       exec (run_stalled k) s = Some s' /\
       now s' = now s + T_IDLE + k * T_IDLE /\
       flushes s' = flushes s ++ [[r1; r2; r3]] /\
       committed s' = apply_batch [r1; r2; r3] (committed s) /\
       log s' = log s ++ [LogBatch 3] /\
       acc s' = Collect [] (now s' + T_IDLE)) /\
  (forall evs s',
     forallb no_arrival evs = true -> exec evs s = Some s' ->
     flushes s' = flushes s \/ flushes s' = flushes s ++ [[r1; r2; r3]]) /\
  (forall s0 updates d,
     running s0 = true -> acc s0 = Collect updates d ->
     items (chan s0) = [] -> d <= now s0 ->
     exists s',
       step EvTimeout s0 = Some s' /\
       flushes s' = flushes s0 /\ committed s' = committed s0 /\
       txn s' = txn s0 /\ log s' = log s0 /\
       acc s' = match updates with
                | [] => Collect [] (now s0 + T_IDLE)
                | _ :: _ => Begin updates
                end).
Proof.
  intros Hr Ha Hi Ht. split; [|split].
  - intros k. eexists.
    split; [apply (exec_run_stalled k s r1 r2 r3 deadline); assumption|].
    simpl. repeat split.
  - intros evs s' Hq He. apply stalled_phase_flushes.
    apply (stalled_phase_exec (flushes s) [r1; r2; r3] evs s s');
      try assumption.
    + discriminate.
    + unfold MAX_BATCH. simpl. lia.
    + apply (PhCollect _ _ _ [] deadline); auto.
  - intros s0 updates d Hr0 Ha0 Hi0 Hd. eexists.
    split; [apply (rule_timeout s0 updates d); assumption|].
    simpl. repeat split.
Qed.

Lemma idle_timeout_cutoff_witness :
  exists s',
    exec (run_stalled 2) st_three_queued = Some s' /\
    flushes s' =
      [[(1%Z, Qmake 25 2, memory_mb 52428800);
        (2%Z, Qmake 25 2, memory_mb 52428800);
        (3%Z, Qmake 25 2, memory_mb 52428800)]] /\
    log s' = [LogBatch 3].
Proof.
  destruct (idle_timeout_cutoff st_three_queued
              (1%Z, Qmake 25 2, memory_mb 52428800)
              (2%Z, Qmake 25 2, memory_mb 52428800)
              (3%Z, Qmake 25 2, memory_mb 52428800)
              T_IDLE eq_refl eq_refl eq_refl eq_refl) as (Hrun & _).
  destruct (Hrun 2) as (s' & He & _ & Hf & _ & Hl & _).
  exists s'. repeat split; assumption.
Defined.

(** * The run of [main] with 1000 tasks and no gap *)

(** [join] watches the queue only: since [task_done] is called as soon as a
    record is taken, [join] is satisfied exactly when the queue is empty,
    whatever the accumulator still holds. *)
Lemma join_watches_queue_only (n : nat) (s : State) :
  reachable n s -> (join_ready (chan s) = true <-> items (chan s) = []).
Proof.
  intros Hr. pose proof (wf_unfinished n s (wf_reachable n s Hr)) as Hu.
  unfold join_ready. rewrite Hu, Nat.eqb_eq. apply length_zero_iff_nil.
Qed.

(** [main]'s return commits nothing; unless the accumulator was at its
    COMMIT, what it held is gone and nothing runs afterwards. *)
Lemma main_return_drops_held (s s' : State) :
  step EvMain s = Some s' -> main s' = MDone ->
  committed s' = committed s /\ flushes s' = flushes s /\
  ((forall updates, acc s <> Committing updates) ->
   held (acc s') = [] /\ txn s' = None /\ forall e, step e s' = None).
Proof.
  intros H Hm. step_inv H; try discriminate Hm;
    (split; [reflexivity|]; split; [reflexivity|]; intros Hnc;
     destruct (acc s) as [| | | |updates| | | |];
     try (exfalso; apply (Hnc updates); reflexivity);
     repeat split; intros e; destruct e; reflexivity).
Qed.

(** C1, the code at the failing run.  All 1000 workers publish, [main]
    waits for [join] and cancels the accumulator, and the run ends cleanly:
    yet when [join] returns the accumulator holds the last hundred records
    with their flush not yet begun ([task_done] was called when each was
    taken, not when it was written), the cancellation drops them, and the
    program ends with nine batches flushed, rows 901 to 1000 still pending,
    and the log line that the database is updated. *)
Theorem clean_shutdown_drops_held_batch :
  exec run_no_gap_to_last_begin (init N_TASKS) = Some st_last_begin /\
  step EvMain st_last_begin = Some st_end /\
  (main st_last_begin = MJoin /\ join_ready (chan st_last_begin) = true /\
   acc st_last_begin = Begin (skipn 900 (published st_last_begin)) /\
   length (held (acc st_last_begin)) = 100) /\
  (main st_end = MDone /\ acc st_end = Cancelled /\ items (chan st_end) = [] /\
   length (published st_end) = 1000 /\
   map (@length UpdateRecord) (flushes st_end) = repeat 100 9 /\
   concat (flushes st_end) = firstn 900 (published st_end) /\
   count_completed (committed st_end) = 900 /\
   pending_ids (committed st_end) = map Z.of_nat (seq 901 100) /\
   log st_end = repeat (LogBatch 100) 9 ++ [LogAllDone]) /\
  forall e, step e st_end = None.
Proof.
  split; [vm_compute; reflexivity|]. split; [vm_compute; reflexivity|].
  split; [by_evaluation|]. split; [by_evaluation|].
  intros e. destruct e; reflexivity.
Qed.

(** C8, the code at the nominal run.  1000 tasks seeded, 1000 workers, no
    fault and no idle gap: the run ends with 900 rows completed and 100
    pending, after nine flushes of 100 records each, not ten. *)
Theorem nominal_run_completes_900 :
  forallb fault_free run_no_gap = true /\
  exec run_no_gap (init N_TASKS) = Some st_end /\
  main st_end = MDone /\
  length (committed st_end) = 1000 /\
  count_completed (committed st_end) = 900 /\
  length (flushes st_end) = 9 /\
  Forall (fun b => length b = 100) (flushes st_end).
Proof.
  do 6 (split; [vm_compute; reflexivity|]).
  apply Forall_forall. intros b Hb.
  assert (H : map (@length UpdateRecord) (flushes st_end) = repeat 100 9)
    by (vm_compute; reflexivity).
  apply (in_map (@length UpdateRecord)) in Hb. rewrite H in Hb.
  apply repeat_spec in Hb. exact Hb.
Qed.

(** * Every run of [main], on a fresh or an existing database *)

Lemma init_is_fresh_start (n : nat) : init n = main_start None n.
Proof. reflexivity. Qed.

Lemma alive_unsettled (a : Acc) : alive a = true -> settled a = false.
Proof. destruct a; simpl; congruence. Qed.

(** A cancellation that leaves something of the accumulator leaves the batch
    whose COMMIT is queued. *)
Lemma cancel_unsettled (a : Acc) :
  settled (cancel a) = false ->
  settled a = false /\ held (cancel a) = held a /\
  unlogged (cancel a) = unlogged a.
Proof. destruct a; simpl; intros H; try discriminate H; repeat split. Qed.

Lemma settled_next_wait (t : nat) (updates : list UpdateRecord) :
  settled (next_wait t updates) = false /\ unlogged (next_wait t updates) = [].
Proof. unfold next_wait. destruct (_ <? _); split; reflexivity. Qed.

Lemma settled_on_timeout (t : nat) (updates : list UpdateRecord) :
  settled (on_timeout t updates) = false /\
  unlogged (on_timeout t updates) = [].
Proof. destruct updates; split; reflexivity. Qed.

Lemma batch_counts_app (l1 l2 : list LogEntry) :
  batch_counts (l1 ++ l2) = batch_counts l1 ++ batch_counts l2.
Proof. unfold batch_counts. apply flat_map_app. Qed.

Lemma run_inv_start (db : option Table) (n : nat) :
  run_inv n (committed (main_start db n)) (main_start db n).
Proof.
  constructor; simpl.
  - constructor; simpl.
    + reflexivity.
    + reflexivity.
    + rewrite map_map. simpl. apply map_id.
    + apply Forall_map. apply Forall_forall. intros i _ u. discriminate.
  - reflexivity.
  - constructor; simpl.
    + intros tid [].
    + constructor.
    + intros u [].
    + constructor.
  - intros H. discriminate H.
  - intros H. discriminate H.
  - reflexivity.
  - exists []. reflexivity.
  - reflexivity.
  - exists []. repeat split. simpl. lia.
  - intros tid H. apply get_worker_In in H. apply in_map_iff in H.
    destruct H as (i & Hi & _). discriminate Hi.
  - discriminate.
Qed.

(** The records in publication order: flushed, then held, then queued. *)
Lemma fifo_step (n : nat) (e : Event) (s s' : State) :
  wf n s ->
  (settled (acc s) = false ->
   concat (flushes s) ++ held (acc s) ++ items (chan s) = published s) ->
  step e s = Some s' ->
  settled (acc s') = false ->
  concat (flushes s') ++ held (acc s') ++ items (chan s') = published s'.
Proof.
  intros Hwf Hf H.
  step_inv H; use_acc; simpl in *;
    try discriminate; try (intros _; auto; fail);
    try (intros Hc; apply cancel_unsettled in Hc;
         destruct Hc as (Hc1 & Hc2 & _); rewrite Hc2; auto; fail).
  - worker_inv n H Hwf.
    + exact Hf.
    + intros Ha. rewrite <- (Hf Ha). rewrite !app_assoc. reflexivity.
  - intros _. rewrite held_next_wait. rewrite Hitems in Hf.
    rewrite <- (Hf eq_refl), <- !app_assoc. reflexivity.
  - intros _. rewrite held_on_timeout. apply Hf. reflexivity.
  - intros _. rewrite concat_app. simpl. rewrite app_nil_r, <- app_assoc.
    apply Hf. reflexivity.
  - exact Hf.
Qed.

(** What was flushed is a prefix of what was published. *)
Lemma prefix_step (n : nat) (e : Event) (s s' : State) :
  wf n s ->
  (settled (acc s) = false ->
   concat (flushes s) ++ held (acc s) ++ items (chan s) = published s) ->
  (exists rest, published s = concat (flushes s) ++ rest) ->
  step e s = Some s' ->
  exists rest, published s' = concat (flushes s') ++ rest.
Proof.
  intros Hwf Hf [rest Hp] H.
  step_inv H; use_acc; simpl in *; try (exists rest; exact Hp).
  - worker_inv n H Hwf.
    + exists rest. exact Hp.
    + exists (rest ++ [u]). rewrite Hp, app_assoc. reflexivity.
  - exists (items (chan s)). rewrite concat_app. simpl.
    rewrite app_nil_r, <- app_assoc. symmetry. apply Hf. reflexivity.
  - exists (items (chan s)). rewrite concat_app. simpl.
    rewrite app_nil_r, <- app_assoc. symmetry. apply Hf. reflexivity.
Qed.

(** The committed table is the starting table with the flushed records
    applied. *)
Lemma table_step (t0 : Table) (e : Event) (s s' : State) :
  txn_ok s -> committed s = apply_batch (concat (flushes s)) t0 ->
  step e s = Some s' ->
  committed s' = apply_batch (concat (flushes s')) t0.
Proof.
  intros Htx Ht H.
  destruct (step_all_or_none e s s' Htx H) as [[Hc Hf]|(b & _ & _ & Hc & Hf)].
  - rewrite Hc, Hf. exact Ht.
  - rewrite Hc, Hf, Ht, concat_app, apply_batch_app. simpl.
    rewrite app_nil_r. reflexivity.
Qed.

(** The log reports the committed batches in order, lacking at most the
    last. *)
Lemma log_step (e : Event) (s s' : State) :
  (exists tail,
     batch_counts (log s) ++ tail = map (@length UpdateRecord) (flushes s) /\
     length tail <= 1 /\ (settled (acc s) = false -> tail = unlogged (acc s))) ->
  step e s = Some s' ->
  exists tail,
    batch_counts (log s') ++ tail = map (@length UpdateRecord) (flushes s') /\
    length tail <= 1 /\ (settled (acc s') = false -> tail = unlogged (acc s')).
Proof.
  intros (tail & Hl & Hlen & Ha) H.
  step_inv H; use_acc; simpl in *;
    try (worker_frame H; rewrite Flog, Fflushes, Facc);
    rewrite ?batch_counts_app, ?app_nil_r;
    try (exists tail; repeat split; try assumption; try discriminate; fail);
    try (exists tail; repeat split; try assumption;
         intros Hc; apply cancel_unsettled in Hc;
         destruct Hc as (Hc1 & _ & Hc3); rewrite Hc3; auto; fail).
  - exists tail. repeat split; try assumption. intros _.
    rewrite (proj2 (settled_next_wait _ _)). apply Ha. reflexivity.
  - exists tail. repeat split; try assumption. intros _.
    rewrite (proj2 (settled_on_timeout _ _)). apply Ha. reflexivity.
  - rewrite (Ha eq_refl) in Hl. simpl in Hl. rewrite app_nil_r in Hl.
    exists [length updates]. rewrite map_app, Hl. repeat split. simpl. lia.
  - rewrite (Ha eq_refl) in Hl. simpl in *.
    exists []. rewrite app_nil_r. repeat split; try assumption. simpl. lia.
  - rewrite (Ha eq_refl) in Hl. simpl in Hl. rewrite app_nil_r in Hl.
    exists [length updates]. rewrite map_app, Hl. repeat split; try discriminate.
    simpl. lia.
Qed.

(** A worker that has finished has published. *)
Lemma finished_step (n : nat) (e : Event) (s s' : State) :
  wf n s ->
  (forall tid, get_worker tid (workers s) = Some Finished ->
               In tid (map rec_id (published s))) ->
  step e s = Some s' ->
  forall tid, get_worker tid (workers s') = Some Finished ->
              In tid (map rec_id (published s')).
Proof.
  intros Hwf Hf H.
  step_inv H; try exact Hf.
  worker_inv n H Hwf; intros tid Hw.
  - destruct (Z.eq_dec tid task_id) as [->|Hne].
    + erewrite get_set_worker_same in Hw by eassumption. discriminate Hw.
    + rewrite get_set_worker_other in Hw by exact Hne. apply Hf. exact Hw.
  - rewrite map_app. apply in_or_app.
    destruct (Z.eq_dec tid task_id) as [->|Hne].
    + right. simpl. left. apply (sample_id _ _ _ Hsample).
    + left. rewrite get_set_worker_other in Hw by exact Hne. apply Hf. exact Hw.
Qed.

(** [main] returns only with every worker finished and the queue empty,
    and its last log line is the final one. *)
Lemma done_step (n : nat) (e : Event) (s s' : State) :
  wf n s -> join_ok s ->
  (main s = MDone ->
   all_finished (workers s) = true /\ items (chan s) = [] /\
   exists l, log s = l ++ [LogAllDone]) ->
  step e s = Some s' ->
  main s' = MDone ->
  all_finished (workers s') = true /\ items (chan s') = [] /\
  exists l, log s' = l ++ [LogAllDone].
Proof.
  intros Hwf Hj Hd H.
  assert (Hq : join_ready (chan s) = true -> items (chan s) = []).
  { unfold join_ready. rewrite (wf_unfinished n s Hwf), Nat.eqb_eq.
    apply length_zero_iff_nil. }
  step_inv H;
    try (worker_frame H; rewrite Fmain);
    try (intros Hm; unfold running in Hrun; rewrite Hm in Hrun;
         discriminate Hrun);
    try discriminate.
  - intros _. split; [assumption|]. split; [apply Hq; assumption|].
    eexists. reflexivity.
  - intros _. split; [apply Hj; assumption|]. split; [apply Hq; assumption|].
    eexists. reflexivity.
  - exact Hd.
  - exact Hd.
Qed.

Lemma run_inv_step (n : nat) (t0 : Table) (e : Event) (s s' : State) :
  run_inv n t0 s -> step e s = Some s' -> run_inv n t0 s'.
Proof.
  intros [Hwf Htx Hpub Hh Hj Hf Hp Ht Hl Hfin Hd] H. constructor.
  - eapply wf_step; eassumption.
  - eapply txn_ok_step; eassumption.
  - eapply pub_ok_step; eassumption.
  - eapply halted_ok_step; eassumption.
  - eapply join_ok_step; eassumption.
  - eapply fifo_step; eassumption.
  - eapply prefix_step; eassumption.
  - eapply table_step; eassumption.
  - eapply log_step; eassumption.
  - eapply finished_step; eassumption.
  - eapply done_step; eassumption.
Qed.

Lemma run_inv_exec (db : option Table) (n : nat) (evs : list Event)
  (s : State) :
  exec evs (main_start db n) = Some s ->
  run_inv n (committed (main_start db n)) s.
Proof.
  intros H. pose proof (run_inv_start db n) as H0. revert H0 H.
  apply (exec_invariant (run_inv n (committed (main_start db n)))).
  intros s0 e s1. apply run_inv_step.
Qed.

(** Every published record carries the id of one of the workers. *)
Lemma published_ids (n : nat) (s : State) (u : UpdateRecord) :
  wf n s -> pub_ok s -> In u (published s) -> In (rec_id u) (task_ids n).
Proof.
  intros Hwf Hpub Hu. rewrite <- (wf_workers n s Hwf).
  apply (get_worker_id _ Finished). apply (pub_finished s Hpub).
  apply in_map. exact Hu.
Qed.

Lemma flushed_published (n : nat) (t0 : Table) (s : State) (u : UpdateRecord) :
  run_inv n t0 s -> In u (concat (flushes s)) -> In u (published s).
Proof.
  intros Hi Hu. destruct (ri_prefix n t0 s Hi) as [rest ->].
  apply in_or_app. left. exact Hu.
Qed.

(** * The table functions *)

Lemma in_sequence_bound (n : nat) (t : Table) (i : nat) :
  in_sequence n t = true -> i < n ->
  (next_rowid t + Z.of_nat i <= MAX_ROWID)%Z.
Proof.
  destruct n as [|k]; simpl; intros H Hi; [lia|].
  apply Z.leb_le in H. lia.
Qed.

(** The next rowid is one more than the largest id in use. *)
Lemma next_rowid_largest (t : Table) :
  t <> [] -> exists r, In r t /\ next_rowid t = (id r + 1)%Z.
Proof.
  destruct t as [|r rest]; [congruence|]. intros _.
  destruct (largest_id_in r rest) as (r0 & Hin & E).
  exists r0. split; [exact Hin|]. simpl. rewrite E. reflexivity.
Qed.

(** X1.  [populate_tasks] keeps every row the table had and appends exactly
    [n] rows, each pending with both usage fields 0, numbered consecutively
    from one more than the largest id in use, be that id negative, or from
    1 on an empty table; none of the new ids exceeds [MAX_ROWID], and the
    primary key stays a key.  Stated of the tables and row counts on which
    the numbering stays within [MAX_ROWID], where SQLite numbers by that
    rule. *)
Theorem populate_tasks_appends (n : nat) (t : Table) :
  in_sequence n t = true ->
  exists first,
    (t = [] -> first = 1%Z) /\
    (forall r, In r t -> (id r < first)%Z) /\
    (t <> [] -> exists r, In r t /\ first = (id r + 1)%Z) /\
    populate_tasks n t =
      t ++ map (fun i => mkRow (first + Z.of_nat i) pending 0%Q 0%Q) (seq 0 n) /\
    (forall i, i < n -> (first + Z.of_nat i <= MAX_ROWID)%Z) /\
    (NoDup (map id t) -> NoDup (map id (populate_tasks n t))).
Proof.
  intros Hseq. exists (next_rowid t).
  split; [intros ->; reflexivity|].
  split; [apply next_rowid_gt|].
  split; [apply next_rowid_largest|].
  split; [apply populate_tasks_closed_form|].
  split; [intros i; apply in_sequence_bound; exact Hseq|].
  intros Hkey. rewrite populate_tasks_ids. apply NoDup_app; [exact Hkey| |].
  - apply NoDup_map_NoDup_ForallPairs; [|apply seq_NoDup].
    intros a b _ _ H. lia.
  - intros i Hi Hn. apply in_map_iff in Hi. destruct Hi as (r0 & <- & Hr0).
    apply in_map_iff in Hn. destruct Hn as (k & Hk & _).
    pose proof (next_rowid_gt _ _ Hr0). lia.
Qed.

Lemma populate_tasks_appends_witness :
  populate_tasks 2 [mkRow (-5) pending 0%Q 0%Q] =
    [mkRow (-5) pending 0%Q 0%Q; mkRow (-4) pending 0%Q 0%Q;
     mkRow (-3) pending 0%Q 0%Q].
Proof.
  destruct (populate_tasks_appends 2 [mkRow (-5) pending 0%Q 0%Q] eq_refl)
    as (first & _ & _ & Hlast & Hp & _).
  destruct Hlast as (r & Hin & ->); [discriminate|].
  destruct Hin as [<-|[]]. exact Hp.
Defined.

(** X2.  On a fresh database the rows [populate_tasks] seeds are numbered
    exactly like the workers [main] starts, in the same order: every worker
    names one row and every row is named by one worker; all rows are pending
    with zero usage. *)
Theorem fresh_seed_matches_workers (n : nat) :
  map id (committed (init n)) = map fst (workers (init n)) /\
  NoDup (map id (committed (init n))) /\
  length (committed (init n)) = n /\
  Forall seeded (committed (init n)).
Proof.
  assert (Hids : map id (committed (init n)) = task_ids n)
    by apply populate_fresh_ids.
  split; [|split; [|split]].
  - rewrite Hids. simpl. rewrite map_map. simpl. symmetry. apply map_id.
  - rewrite Hids. apply task_ids_NoDup.
  - rewrite <- (length_map id), Hids. apply task_ids_length.
  - simpl. apply populate_tasks_seeded. constructor.
Qed.

(** * What a run does to the table *)

Lemma flushed_ids (n : nat) (t0 : Table) (s : State) :
  run_inv n t0 s ->
  forall i, In i (map rec_id (concat (flushes s))) -> In i (task_ids n).
Proof.
  intros Hi i Hin. apply in_map_iff in Hin. destruct Hin as (u & <- & Hu).
  apply (published_ids n s u (ri_wf n t0 s Hi) (ri_pub n t0 s Hi)).
  apply (flushed_published n t0 s u Hi Hu).
Qed.

Lemma run_table_rowwise (db : option Table) (n : nat)
  (evs : list Event) (s : State) :
  exec evs (main_start db n) = Some s ->
  committed s =
    map (row_after (concat (flushes s))) (committed (main_start db n)) /\
  (forall i, In i (map rec_id (concat (flushes s))) -> In i (task_ids n)).
Proof.
  intros H. pose proof (run_inv_exec db n evs s H) as Hi.
  pose proof (ri_table _ _ _ Hi) as Ht. rewrite apply_batch_rowwise in Ht.
  split; [exact Ht | apply (flushed_ids n _ s Hi)].
Qed.

(** X3.  Whatever table [main] starts on and whatever the run: the
    committed table is the starting table with the flushed records applied
    row by row, so no row is ever added or removed and the ids stay as they
    were; every flushed record carries the id of a worker; and a row whose
    id is not one of the workers' ids is never changed. *)
Theorem main_touches_only_worker_rows (db : option Table) (n : nat)
  (evs : list Event) (s : State) :
  exec evs (main_start db n) = Some s ->
  committed s =
    map (row_after (concat (flushes s))) (committed (main_start db n)) /\
  map id (committed s) = map id (committed (main_start db n)) /\
  (forall u, In u (concat (flushes s)) -> In (rec_id u) (task_ids n)) /\
  (forall r, In r (committed (main_start db n)) ->
             ~ In (id r) (task_ids n) -> In r (committed s)).
Proof.
  intros H. pose proof (run_inv_exec db n evs s H) as Hi.
  pose proof (ri_table _ _ _ Hi) as Ht. rewrite apply_batch_rowwise in Ht.
  split; [exact Ht|]. split; [|split].
  - rewrite (ri_table _ _ _ Hi). apply apply_batch_ids.
  - intros u Hu. apply (flushed_ids n _ s Hi). apply in_map. exact Hu.
  - intros r Hr Hid. rewrite Ht.
    rewrite <- (row_after_untouched (concat (flushes s)) r).
    + apply in_map. exact Hr.
    + intros Hin. apply Hid. apply (flushed_ids n _ s Hi). exact Hin.
Qed.

Lemma main_touches_only_worker_rows_witness :
  committed st_rerun =
    map (row_after (concat (flushes st_rerun)))
      (committed (main_start db_after_one_task 1)).
Proof.
  destruct (main_touches_only_worker_rows db_after_one_task 1 run_one_flushed
              st_rerun) as (Ht & _).
  - vm_compute. reflexivity.
  - exact Ht.
Defined.

Lemma skipn_length_app {A : Type} (l1 l2 : list A) :
  skipn (length l1) (l1 ++ l2) = l2.
Proof. induction l1 as [|a l1 IH]; simpl; [reflexivity | exact IH]. Qed.

(** X4.  The script run on a database that already holds a row with an id
    of [n] or more (as after an earlier run of the same script), with room
    for [n] more rowids within [MAX_ROWID]: the [n] rows this run seeds are
    numbered from one more than the largest id in use, which is above [n];
    no worker names them, and in every state of every run they are still
    pending with zero usage. *)
Theorem rerun_leaves_new_rows_pending (db : option Table) (n : nat)
  (evs : list Event) (s : State) (r0 : Row) :
  In r0 (setup_database db) -> (Z.of_nat n <= id r0)%Z ->
  in_sequence n (setup_database db) = true ->
  exec evs (main_start db n) = Some s ->
  exists first,
    (forall r, In r (setup_database db) -> (id r < first)%Z) /\
    (exists r, In r (setup_database db) /\ first = (id r + 1)%Z) /\
    skipn (length (setup_database db)) (committed s) =
      map (fun i => mkRow (first + Z.of_nat i) pending 0%Q 0%Q) (seq 0 n) /\
    Forall (fun r => seeded r /\ ~ In (id r) (task_ids n) /\
                     (id r <= MAX_ROWID)%Z)
      (skipn (length (setup_database db)) (committed s)).
Proof.
  intros Hr0 Hbig Hseq H. exists (next_rowid (setup_database db)).
  pose proof (next_rowid_gt _ _ Hr0) as Hgt.
  destruct (run_table_rowwise db n evs s H) as (Ht & Hids).
  assert (Hout : forall i, ~ In (next_rowid (setup_database db) + Z.of_nat i)%Z
                             (task_ids n)).
  { intros i Hin. unfold task_ids in Hin. apply in_map_iff in Hin.
    destruct Hin as (k & Hk & Hin). apply in_seq in Hin. lia. }
  assert (E : skipn (length (setup_database db)) (committed s) =
              map (fun i => mkRow (next_rowid (setup_database db) + Z.of_nat i)
                              pending 0%Q 0%Q) (seq 0 n)).
  { rewrite Ht. simpl committed. rewrite populate_tasks_closed_form, map_app.
    rewrite <- (length_map (row_after (concat (flushes s)))
                  (setup_database db)) at 1.
    rewrite skipn_length_app. rewrite <- (map_id (map _ (seq 0 n))) at 2.
    apply map_ext_in. intros r Hr. apply row_after_untouched.
    intros Hin. apply Hids in Hin.
    apply in_map_iff in Hr. destruct Hr as (i & <- & _). simpl in Hin.
    exact (Hout i Hin). }
  split; [apply next_rowid_gt|].
  split; [apply next_rowid_largest; intros E0; rewrite E0 in Hr0; exact Hr0|].
  split; [exact E|]. rewrite E. apply Forall_map. apply Forall_forall.
  intros i Hi. apply in_seq in Hi. simpl.
  split; [repeat split|]. split; [apply Hout|].
  apply (in_sequence_bound n _ i Hseq). lia.
Qed.

Lemma rerun_leaves_new_rows_pending_witness :
  skipn 1 (committed st_rerun) = [mkRow 2 pending 0%Q 0%Q].
Proof.
  destruct (rerun_leaves_new_rows_pending db_after_one_task 1 run_one_flushed
              st_rerun (mkRow 1 completed (Qmake 25 2) (memory_mb 52428800)))
    as (first & _ & (r & Hin & ->) & E & _).
  - left. reflexivity.
  - vm_compute. discriminate.
  - reflexivity.
  - vm_compute. reflexivity.
  - destruct Hin as [<-|[]]. exact E.
Defined.

(** * Records in order *)

(** X5.  In every run of [main] the records reach the table in the order in
    which they were published, each at most once: the flushed batches, one
    after the other, are a prefix of the publication order; while the
    accumulator has not ended, the published records are exactly the flushed
    ones, then the ones it holds, then the ones in the queue; no task id is
    published twice; and no batch that was committed is empty. *)
Theorem records_flushed_in_publication_order (db : option Table) (n : nat)
  (evs : list Event) (s : State) :
  exec evs (main_start db n) = Some s ->
  (exists rest, published s = concat (flushes s) ++ rest) /\
  (alive (acc s) = true ->
   published s = concat (flushes s) ++ held (acc s) ++ items (chan s)) /\
  NoDup (map rec_id (published s)) /\
  Forall (fun b => b <> []) (flushes s).
Proof.
  intros H. pose proof (run_inv_exec db n evs s H) as Hi.
  split; [exact (ri_prefix _ _ _ Hi)|].
  split; [intros Ha; symmetry;
          exact (ri_fifo _ _ _ Hi (alive_unsettled _ Ha))|].
  split; [exact (pub_nodup _ (ri_pub _ _ _ Hi))|].
  assert (Hb : batch_ok s).
  { assert (H0 : batch_ok (main_start db n))
      by (split; simpl; [exact I | constructor]).
    revert H0 H. apply (exec_invariant batch_ok).
    intros s0 e s1. apply batch_ok_step. }
  destruct Hb as [_ Hb]. eapply Forall_impl; [|exact Hb].
  intros b [Hlen _] ->. simpl in Hlen. lia.
Qed.

Lemma records_flushed_in_publication_order_witness :
  published st_flushed = concat (flushes st_flushed) ++ [] ++ [].
Proof.
  destruct (records_flushed_in_publication_order None 1 run_one_flushed
              st_flushed) as (_ & Hfifo & _).
  - vm_compute. reflexivity.
  - exact (Hfifo eq_refl).
Defined.

(** * Counting completed rows *)

Lemma is_completed_row_after (updates : list UpdateRecord) (r : Row) :
  is_completed (row_after updates r) =
  is_completed r || existsb (fun u => Z.eqb (id r) (rec_id u)) updates.
Proof.
  revert r. induction updates as [|u us IH]; intros r.
  - simpl. rewrite orb_false_r. reflexivity.
  - change (row_after (u :: us) r) with (row_after us (row_update u r)).
    rewrite IH, row_update_id. simpl existsb.
    unfold row_update, is_completed.
    destruct (Z.eqb (id r) (rec_id u)); simpl.
    + rewrite orb_true_r. reflexivity.
    + reflexivity.
Qed.

Lemma count_completed_seeded (updates : list UpdateRecord) (t : Table) :
  Forall seeded t ->
  count_completed (map (row_after updates) t) = touched updates t.
Proof.
  unfold count_completed, touched. intros H.
  induction H as [|r t Hr Ht IH]; simpl.
  - reflexivity.
  - rewrite is_completed_row_after. destruct Hr as (Hs & _).
    unfold is_completed at 1. rewrite Hs. simpl orb.
    destruct (existsb _ updates); simpl; rewrite IH; reflexivity.
Qed.

(** With a primary key and a batch without repeated ids that names only
    rows of the table, the batch names as many rows as it has records. *)
Lemma touched_all (updates : list UpdateRecord) (t : Table) :
  NoDup (map id t) -> NoDup (map rec_id updates) ->
  incl (map rec_id updates) (map id t) ->
  touched updates t = length updates.
Proof.
  intros Hkey Hnd Hin. apply Nat.le_antisymm; [apply touched_le; exact Hkey|].
  unfold touched.
  rewrite <- (length_map id (filter _ t)), <- (length_map rec_id updates).
  apply NoDup_incl_length; [exact Hnd|].
  intros i Hi. pose proof (Hin i Hi) as Ht. apply in_map_iff in Ht.
  destruct Ht as (r & <- & Hr). apply in_map. apply filter_In.
  split; [exact Hr|]. apply existsb_exists.
  apply in_map_iff in Hi. destruct Hi as (u & Hu & Huin).
  exists u. split; [exact Huin|]. apply Z.eqb_eq. symmetry. exact Hu.
Qed.

Lemma reachable_run_inv (n : nat) (s : State) :
  reachable n s -> run_inv n (committed (init n)) s.
Proof. intros [evs H]. exact (run_inv_exec None n evs s H). Qed.

Lemma count_completed_flushed (n : nat) (s : State) :
  reachable n s ->
  count_completed (committed s) = length (concat (flushes s)).
Proof.
  intros Hr. pose proof (reachable_run_inv n s Hr) as Hi.
  destruct (ri_prefix _ _ _ Hi) as [rest Hp].
  rewrite (ri_table _ _ _ Hi), apply_batch_rowwise.
  rewrite count_completed_seeded
    by (simpl; apply populate_tasks_seeded; constructor).
  apply touched_all.
  - simpl. rewrite populate_fresh_ids. apply task_ids_NoDup.
  - pose proof (pub_nodup _ (ri_pub _ _ _ Hi)) as Hnd.
    rewrite Hp, map_app in Hnd. apply NoDup_app_remove_r in Hnd. exact Hnd.
  - intros i Hin. simpl. rewrite populate_fresh_ids.
    apply (flushed_ids n _ s Hi). exact Hin.
Qed.

(** X6.  On a fresh database, in every reachable state the number of
    completed rows is the number of records flushed so far: every flushed
    record completed exactly one row, and nothing else completes a row. *)
Theorem completed_rows_count_flushed_records (n : nat) (s : State) :
  reachable n s ->
  count_completed (committed s) = length (concat (flushes s)) /\
  length (concat (flushes s)) <= length (published s) <= n.
Proof.
  intros Hr. pose proof (reachable_run_inv n s Hr) as Hi.
  pose proof (inv_reachable n s Hr) as Hinv.
  destruct (ri_prefix _ _ _ Hi) as [rest Hp].
  split; [exact (count_completed_flushed n s Hr)|].
  split; [rewrite Hp, length_app; lia | apply published_le; exact Hinv].
Qed.

Lemma completed_rows_count_flushed_records_witness :
  count_completed (committed st_flushed) = 1.
Proof.
  destruct (completed_rows_count_flushed_records 1 st_flushed) as (E & _).
  - exists run_one_flushed. vm_compute. reflexivity.
  - exact E.
Defined.

(** * The log *)

(** X7.  The "Batch update of ... tasks completed" lines tell the truth: in
    every run their counts are, in order, the sizes of the batches that were
    committed, lacking at most the last committed batch; and while the
    accumulator collects or flushes, every committed batch has its line. *)
Theorem log_reports_committed_batches (db : option Table) (n : nat)
  (evs : list Event) (s : State) :
  exec evs (main_start db n) = Some s ->
  exists tail,
    batch_counts (log s) ++ tail = map (@length UpdateRecord) (flushes s) /\
    length tail <= 1 /\
    (alive (acc s) = true -> tail = unlogged (acc s)).
Proof.
  intros H. destruct (ri_log _ _ _ (run_inv_exec db n evs s H))
    as (tail & Hl & Hlen & Ht).
  exists tail. split; [exact Hl|]. split; [exact Hlen|].
  intros Ha. apply Ht. apply alive_unsettled. exact Ha.
Qed.

Lemma log_reports_committed_batches_witness :
  batch_counts (log st_flushed) = map (@length UpdateRecord) (flushes st_flushed).
Proof.
  destruct (log_reports_committed_batches None 1 run_one_flushed st_flushed)
    as (tail & E & _ & Ht).
  - vm_compute. reflexivity.
  - rewrite (Ht eq_refl) in E. simpl unlogged in E.
    rewrite app_nil_r in E. exact E.
Defined.

(** * When [main] returns *)

Lemma all_finished_published (n : nat) (t0 : Table) (s : State) :
  run_inv n t0 s -> all_finished (workers s) = true ->
  length (published s) = n.
Proof.
  intros Hi Hall. apply Nat.le_antisymm.
  - rewrite <- (task_ids_length n), <- (length_map rec_id).
    apply NoDup_incl_length; [exact (pub_nodup _ (ri_pub _ _ _ Hi))|].
    intros i Hin. apply in_map_iff in Hin. destruct Hin as (u & <- & Hu).
    exact (published_ids n s u (ri_wf _ _ _ Hi) (ri_pub _ _ _ Hi) Hu).
  - rewrite <- (task_ids_length n) at 1.
    rewrite <- (length_map rec_id (published s)).
    apply NoDup_incl_length; [apply task_ids_NoDup|].
    intros i Hin. apply (ri_finished _ _ _ Hi).
    rewrite <- (wf_workers n s (ri_wf _ _ _ Hi)) in Hin.
    apply in_map_iff in Hin. destruct Hin as ([j w] & Hj & Hp).
    simpl in Hj. subst j.
    unfold all_finished in Hall. rewrite forallb_forall in Hall.
    pose proof (Hall _ Hp) as Hw. simpl in Hw.
    destruct w; try discriminate Hw.
    unfold get_worker.
    destruct (find (fun p => Z.eqb (fst p) i) (workers s)) as [[j w]|] eqn:E.
    + apply find_some in E. destruct E as [Hq Hid]. simpl in Hid.
      apply Z.eqb_eq in Hid. subst j. simpl.
      pose proof (Hall _ Hq) as Hw2. simpl in Hw2.
      destruct w; try discriminate Hw2. reflexivity.
    + exfalso. apply (find_none _ _ E) in Hp. simpl in Hp.
      rewrite Z.eqb_refl in Hp. discriminate Hp.
Qed.

(** X8.  When [main] has returned, on a fresh database: every worker has
    finished and all [n] records were published, the queue is empty, the
    accumulator has ended, and the last log line is "All tasks processed and
    database updated."; the records split into the flushed ones and the
    ones that were taken off the queue but not flushed, and the number of
    completed rows is [n] less the number of those. *)
Theorem main_returns_with_queue_drained (n : nat) (s : State) :
  reachable n s -> main s = MDone ->
  all_finished (workers s) = true /\
  length (published s) = n /\
  items (chan s) = [] /\
  alive (acc s) = false /\
  (exists l, log s = l ++ [LogAllDone]) /\
  exists unflushed,
    published s = concat (flushes s) ++ unflushed /\
    count_completed (committed s) + length unflushed = n.
Proof.
  intros Hr Hm. pose proof (reachable_run_inv n s Hr) as Hi.
  destruct (ri_done _ _ _ Hi Hm) as (Hall & Hq & Hl).
  pose proof (all_finished_published n _ s Hi Hall) as Hn.
  split; [exact Hall|]. split; [exact Hn|]. split; [exact Hq|]. split.
  - assert (Hrun : running s = false) by (unfold running; rewrite Hm; reflexivity).
    destruct (ri_halted _ _ _ Hi Hrun) as [-> | [-> | [u ->]]]; reflexivity.
  - split; [exact Hl|]. destruct (ri_prefix _ _ _ Hi) as [rest Hp].
    exists rest. split; [exact Hp|].
    rewrite (count_completed_flushed n s Hr). rewrite Hp, length_app in Hn. exact Hn.
Qed.

Lemma main_returns_with_queue_drained_witness :
  length (published st_returned) = 1 /\
  count_completed (committed st_returned) = 0.
Proof.
  destruct (main_returns_with_queue_drained 1 st_returned)
    as (_ & Hn & _).
  - exists run_returned. vm_compute. reflexivity.
  - reflexivity.
  - split; [exact Hn | reflexivity].
Defined.

(** X9.  A storage fault can leave [main] waiting for ever: once the
    exception has ended the accumulator with a record still in the queue,
    nothing calls [task_done] for it, [update_queue.join()] is never
    satisfied, and in no continuation of the run does [main] return. *)
Theorem fault_with_queued_record_blocks_main (n : nat) (s : State) :
  reachable n s -> acc s = Raised -> items (chan s) <> [] ->
  forall evs s', exec evs s = Some s' ->
    main s' <> MDone /\ join_ready (chan s') = false.
Proof.
  intros Hr Ha Hq evs s' He.
  destruct (raised_exec evs s s' Ha He) as (_ & _ & _ & _ & more & Hi).
  assert (Hq' : items (chan s') <> []).
  { rewrite Hi. intros E. apply app_eq_nil in E. destruct E as [E _].
    exact (Hq E). }
  assert (Hr' : reachable n s') by (eapply reachable_exec; eassumption).
  split.
  - intros Hm. pose proof (reachable_run_inv n s' Hr') as Hinv.
    destruct (ri_done _ _ _ Hinv Hm) as (_ & E & _). exact (Hq' E).
  - destruct (join_ready (chan s')) eqn:E; [|reflexivity].
    exfalso. apply Hq'. apply (join_watches_queue_only n s' Hr'). exact E.
Qed.

Lemma fault_with_queued_record_blocks_main_witness :
  main (final [EvWorker 2 reading; EvMain] st_fault_queued) <> MDone.
Proof.
  assert (Hr : reachable 2 st_fault_queued).
  { exists run_fault_then_put. vm_compute. reflexivity. }
  assert (Hq : items (chan st_fault_queued) <> []).
  { vm_compute. discriminate. }
  destruct (fault_with_queued_record_blocks_main 2 st_fault_queued Hr
              eq_refl Hq [EvWorker 2 reading; EvMain]
              (final [EvWorker 2 reading; EvMain] st_fault_queued) eq_refl)
    as (Hm & _).
  exact Hm.
Defined.

(** * Several records for one row *)

Lemma last_match_snoc (tid : Z) (updates : list UpdateRecord)
  (u : UpdateRecord) :
  last_match tid (updates ++ [u]) =
  if Z.eqb tid (rec_id u) then Some u else last_match tid updates.
Proof. unfold last_match. rewrite rev_unit. reflexivity. Qed.

Lemma row_after_snoc (updates : list UpdateRecord) (u : UpdateRecord)
  (r : Row) :
  row_after (updates ++ [u]) r = row_update u (row_after updates r).
Proof. unfold row_after. rewrite fold_left_app. reflexivity. Qed.

Lemma row_after_last_match (updates : list UpdateRecord) (r : Row) :
  row_after updates r =
  match last_match (id r) updates with
  | Some u => mkRow (id r) completed (rec_cpu u) (rec_mem u)
  | None => r
  end.
Proof.
  induction updates as [|u us IH] using rev_ind.
  - reflexivity.
  - rewrite row_after_snoc, last_match_snoc. unfold row_update.
    rewrite row_after_id.
    destruct (Z.eqb (id r) (rec_id u)); [reflexivity | exact IH].
Qed.

(** X10.  What a batch does to the table, also when several of its records
    name the same row: a row no record names is left as it is, and any other
    row ends completed with the usage of the last record of the batch that
    names it; so applying the same batch a second time changes nothing. *)
Theorem batch_last_record_wins (updates : list UpdateRecord) (t : Table) :
  apply_batch updates t =
    map (fun r => match last_match (id r) updates with
                  | Some u => mkRow (id r) completed (rec_cpu u) (rec_mem u)
                  | None => r
                  end) t /\
  apply_batch updates (apply_batch updates t) = apply_batch updates t.
Proof.
  split.
  - rewrite apply_batch_rowwise. apply map_ext. intros r.
    apply row_after_last_match.
  - rewrite !apply_batch_rowwise, map_map. apply map_ext. intros r.
    rewrite (row_after_last_match updates (row_after updates r)).
    rewrite !row_after_id.
    destruct (last_match (id r) updates) as [u|] eqn:E; [|reflexivity].
    rewrite (row_after_last_match updates r), E. reflexivity.
Qed.

(** X11.  [update_queue.join()] watches the queue only: in every reachable
    state it is satisfied exactly when the queue is empty, whatever the
    accumulator has taken and not yet written. *)
Theorem join_satisfied_iff_queue_empty (n : nat) (s : State) :
  reachable n s ->
  (join_ready (chan s) = true <-> items (chan s) = []) /\
  unfinished_tasks (chan s) = length (items (chan s)).
Proof.
  intros Hr. split; [exact (join_watches_queue_only n s Hr)|].
  exact (wf_unfinished n s (wf_reachable n s Hr)).
Qed.

Lemma join_satisfied_iff_queue_empty_witness :
  join_ready (chan st_last_begin) = true /\
  length (held (acc st_last_begin)) = 100.
Proof.
  destruct (join_satisfied_iff_queue_empty N_TASKS st_last_begin) as (Hj & _).
  - exists run_no_gap_to_last_begin. vm_compute. reflexivity.
  - split; [apply Hj; reflexivity | vm_compute; reflexivity].
Defined.

(** * What no run does *)

Lemma count_completed_row_after (updates : list UpdateRecord) (t : Table) :
  count_completed t <= count_completed (map (row_after updates) t).
Proof.
  unfold count_completed. induction t as [|r t IH]; simpl.
  - lia.
  - rewrite is_completed_row_after.
    destruct (is_completed r); simpl; [lia|].
    destruct (existsb _ updates); simpl; lia.
Qed.

(** X12.  No step of any run, on whatever table [main] started, turns a
    completed row back to pending: the row at each position keeps its id,
    a completed one stays completed, and the number of completed rows never
    goes down. *)
Theorem completed_never_reverts (db : option Table) (n : nat)
  (evs : list Event) (s s' : State) (e : Event) :
  exec evs (main_start db n) = Some s -> step e s = Some s' ->
  count_completed (committed s) <= count_completed (committed s') /\
  forall k r,
    nth_error (committed s) k = Some r ->
    exists r',
      nth_error (committed s') k = Some r' /\ id r' = id r /\
      (status r = completed -> status r' = completed).
Proof.
  intros H Hs. pose proof (run_inv_exec db n evs s H) as Hi.
  destruct (step_all_or_none e s s' (ri_txn _ _ _ Hi) Hs)
    as [[Hc _]|(b & _ & _ & Hc & _)]; rewrite Hc.
  - split; [lia|]. intros k r Hk. exists r. auto.
  - rewrite apply_batch_rowwise. split; [apply count_completed_row_after|].
    intros k r Hk. exists (row_after b r).
    split; [rewrite nth_error_map, Hk; reflexivity|].
    split; [apply row_after_id|]. intros Hst.
    pose proof (is_completed_row_after b r) as Hb.
    unfold is_completed in Hb at 2. rewrite Hst in Hb. simpl in Hb.
    unfold is_completed in Hb. destruct (status (row_after b r));
      [discriminate Hb | reflexivity].
Qed.

Lemma completed_never_reverts_witness :
  count_completed (committed st_begin)
  <= count_completed (committed (final [EvDb true] st_begin)).
Proof.
  destruct (completed_never_reverts None 1 run_to_begin st_begin
              (final [EvDb true] st_begin) (EvDb true)) as (Hc & _).
  - vm_compute. reflexivity.
  - reflexivity.
  - exact Hc.
Defined.

Lemma exit_ok_step (e : Event) (s s' : State) :
  exit_ok s -> step e s = Some s' -> exit_ok s'.
Proof.
  unfold exit_ok. intros [Hl Hf] H.
  destruct (running s) eqn:Hr.
  2: { destruct (halted_step e s s' Hr H)
         as (ok & u & _ & _ & _ & Hm & _ & _ & Hw & Hlog & _).
       rewrite Hm, Hw, Hlog. split; assumption. }
  assert (Hnot : ~ In LogAllDone (log s)).
  { intros Hin. apply Hl in Hin. unfold running in Hr. rewrite Hin in Hr.
    discriminate Hr. }
  step_inv H; try discriminate Hr;
    try (worker_frame H; rewrite Flog, Fmain);
    try (split; [intros Hin; contradiction
                | intros Hm; unfold running in Hrun; rewrite Hm in Hrun;
                  discriminate Hrun]; fail);
    try (split; [intros _; reflexivity | discriminate]; fail);
    try (split; [intros Hin; contradiction | intros _; assumption]; fail).
  - split; [|exact Hf]. intros Hin. apply in_app_or in Hin.
    destruct Hin as [Hin|[Hin|[]]]; [contradiction | discriminate Hin].
  - split; [intros Hin; contradiction | discriminate].
Qed.

Lemma exit_ok_exec (db : option Table) (n : nat) (evs : list Event)
  (s : State) :
  exec evs (main_start db n) = Some s -> exit_ok s.
Proof.
  intros H. assert (H0 : exit_ok (main_start db n)).
  { split; simpl; [intros [] | discriminate]. }
  revert H0 H. apply (exec_invariant exit_ok).
  intros s0 e s1. apply exit_ok_step.
Qed.

(** X13.  How a run that got to [main]'s first await ends: the line "All
    tasks processed and database updated." is in the log exactly when
    [main] has returned, and then it is the last line; [main] ends with an
    exception only if a worker has failed, and then that line was never
    written; and once [main] has ended either way, the accumulator
    coroutine has ended too, and all that can still happen is the COMMIT it
    had queued, once: no record is taken and no line is logged any more. *)
Theorem run_end (db : option Table) (n : nat) (evs : list Event) (s : State) :
  exec evs (main_start db n) = Some s ->
  (In LogAllDone (log s) <-> main s = MDone) /\
  (main s = MDone -> exists l, log s = l ++ [LogAllDone]) /\
  (main s = MFailed ->
   some_failed (workers s) = true /\ ~ In LogAllDone (log s)) /\
  (running s = false ->
   alive (acc s) = false /\
   forall e s',
     step e s = Some s' ->
     (exists ok updates, e = EvDb ok /\ acc s = CommitQueued updates) /\
     acc s' = Cancelled /\ main s' = main s /\ chan s' = chan s /\
     log s' = log s /\ forall e', step e' s' = None).
Proof.
  intros H. pose proof (run_inv_exec db n evs s H) as Hi.
  destruct (exit_ok_exec db n evs s H) as [Hl Hf].
  split; [|split; [|split]].
  - split; [exact Hl|]. intros Hm.
    destruct (ri_done _ _ _ Hi Hm) as (_ & _ & l & ->).
    apply in_or_app. right. left. reflexivity.
  - intros Hm. exact (proj2 (proj2 (ri_done _ _ _ Hi Hm))).
  - intros Hm. split; [exact (Hf Hm)|]. intros Hin. apply Hl in Hin.
    congruence.
  - intros Hr. split.
    + destruct (ri_halted _ _ _ Hi Hr) as [-> | [-> | [u ->]]]; reflexivity.
    + intros e s' Hs.
      destruct (halted_step e s s' Hr Hs)
        as (ok & u & He & Ha & Ha' & Hm & _ & Hc & _ & Hlog & _).
      split; [exists ok, u; split; assumption|].
      split; [exact Ha'|]. split; [exact Hm|]. split; [exact Hc|].
      split; [exact Hlog|].
      intros e'. unfold step. unfold running in *. rewrite Hm, Hr.
      destruct e'; try reflexivity. unfold step_queued. rewrite Ha'.
      reflexivity.
Qed.

Lemma run_end_witness :
  running st_commit_queued = false /\
  acc (final [EvDb true] st_commit_queued) = Cancelled /\
  log (final [EvDb true] st_commit_queued) = log st_commit_queued.
Proof.
  destruct (run_end None 2 run_commit_queued st_commit_queued)
    as (_ & _ & _ & Hh).
  - vm_compute. reflexivity.
  - destruct (Hh eq_refl) as (_ & Hq).
    destruct (Hq (EvDb true) (final [EvDb true] st_commit_queued) eq_refl)
      as (_ & Ha & _ & _ & Hl & _).
    split; [reflexivity|]. split; assumption.
Defined.
